(** * Pulsar timing glitches: a verified model of [pint.models.glitch]

    The development embeds the [Glitch] phase component (parameter
    discovery and validation in [setup], the forward model [glitch_phase]
    and the six analytic derivatives [d_phase_d_GLPH] ... [d_phase_d_GLTD])
    and proves the properties stated about it.

    Conventions of the embedding.
    - Numbers are real numbers ([R]); a numpy array is a [list R].
    - An astropy [Quantity] is represented by its magnitude in SI base
      units (second, hertz, cycle), so [.to(u.second)] is the identity and
      [u.day] is [86400].  [GLTD_n.value] is in days, [GLTD_n.quantity]
      is the same time in seconds.
    - Exceptions are values of [exn]; a function that may raise returns a
      [result].  numpy answers a division by a zero divisor with inf/nan
      and a "divide by zero" RuntimeWarning; the reals have no such value,
      so the model ends the computation with [Raise DivideByZero] at the
      point where the division is performed.
    - The attributes of the Python object are a finite map from names to
      parameter objects ([attrs]), next to the list [params] of names in
      the order in which [add_param] was called. *)

From Stdlib Require Import Reals Lra String Ascii.
From Stdlib Require Import DecimalString DecimalNat DecimalFacts.
From stdpp Require Import gmap strings list fin_maps.

(** ** Exceptions and the result monad *)

Inductive exn : Type :=
| MissingParameter (module param msg : string)
| ValueError (msg : string)
| AttributeError (attr : string)
| PrefixError (msg : string)
| ShapeError
| DivideByZero.

Inductive result (A : Type) : Type :=
| Ok (a : A)
| Raise (e : exn).
Arguments Ok {A} a.
Arguments Raise {A} e.

#[global] Instance result_ret : MRet result := fun _ a => Ok a.
#[global] Instance result_bind : MBind result := fun _ _ f r =>
  match r with
  | Ok a => f a
  | Raise e => Raise e
  end.
#[global] Instance result_fmap : FMap result := fun _ _ f r =>
  match r with
  | Ok a => Ok (f a)
  | Raise e => Raise e
  end.

(** [for x in xs: acc = body(acc, x)], stopping at the first exception. *)
Fixpoint foldM {A B : Type} (body : A → B → result A) (acc : A) (xs : list B)
  : result A :=
  match xs with
  | [] => Ok acc
  | x :: xs' => acc' ← body acc x; foldM body acc' xs'
  end.

(** [[f(x) for x in xs]], stopping at the first exception. *)
Fixpoint forM {A B : Type} (f : A → result B) (xs : list A) : result (list B) :=
  match xs with
  | [] => Ok []
  | x :: xs' => y ← f x; ys ← forM f xs'; Ok (y :: ys)
  end.

(** ** Parameter names *)

(** The seven parameter families that [Glitch.__init__] declares. *)
Inductive family : Type := GLPH | GLEP | GLF0 | GLF1 | GLF2 | GLF0D | GLTD.

#[global] Instance family_eq_dec : EqDecision family.
Proof. solve_decision. Defined.

Definition prefix_str (f : family) : string :=
  match f with
  | GLPH => "GLPH_"
  | GLEP => "GLEP_"
  | GLF0 => "GLF0_"
  | GLF1 => "GLF1_"
  | GLF2 => "GLF2_"
  | GLF0D => "GLF0D_"
  | GLTD => "GLTD_"
  end.

(** ['%d' % n] and [str(n)] for a non-negative integer. *)
Definition str (n : nat) : string := NilZero.string_of_uint (Nat.to_uint n).

(** Python's [x in y] on strings: [x] occurs in [y] at some offset. *)
Fixpoint str_in (x y : string) : bool :=
  String.prefix x y ||
  match y with
  | EmptyString => false
  | String _ y' => str_in x y'
  end.

(** [y.startswith(x)] *)
Definition startswith (y x : string) : bool := String.prefix x y.

(** The name of the parameter of family [f] at index [i]. *)
Definition pname (f : family) (i : nat) : string := prefix_str f +:+ str i.

(** Every character of [s] satisfies [P]. *)
Fixpoint str_all (P : ascii → bool) (s : string) : bool :=
  match s with
  | EmptyString => true
  | String c s' => P c && str_all P s'
  end.

Definition is_digit (c : ascii) : bool :=
  (48 <=? nat_of_ascii c)%nat && (nat_of_ascii c <=? 57)%nat.

(** ** The parameter store *)

(** A [prefixParameter] object.  Its unit is fixed by its family (the
    [unitTplt] of [__init__], copied by [new_param]): day for GLEP and
    GLTD, pulse phase for GLPH, Hz, Hz/s and Hz/s^2 for the others.
    Every parameter of a store carries a number: the [GLEP_1] that
    [__init__] declares without a value is represented once a par file
    has given it one. *)
Record prefixParameter : Type := mkParam {
  par_prefix : family;
  par_index : nat;
  par_value : R
}.

(** [par.name]: the prefix followed by the index. *)
Definition par_name (p : prefixParameter) : string :=
  pname (par_prefix p) (par_index p).

Definition day : R := 86400%R.

(** [par.quantity], in SI base units. *)
Definition par_quantity (p : prefixParameter) : R :=
  match par_prefix p with
  | GLEP | GLTD => (par_value p * day)%R
  | _ => par_value p
  end.

(** [param0.new_param(idx)]: same family (hence unit and description
    template) and same value, at another index. *)
Definition new_param (p0 : prefixParameter) (idx : nat) : prefixParameter :=
  {| par_prefix := par_prefix p0; par_index := idx; par_value := par_value p0 |}.

(** The [Glitch] component: the names in [self.params], the parameter
    objects held as attributes, [self.glitch_indices] (empty until [setup]
    stores it) and the registry of derivative functions, a list of pairs
    (function name, parameter name) in registration order. *)
Record Glitch : Type := mkGlitch {
  params : list string;
  attrs : gmap string prefixParameter;
  glitch_indices : list nat;
  deriv_funcs : list (string * string)
}.

Definition hasattr (self : Glitch) (nm : string) : bool :=
  bool_decide (is_Some (attrs self !! nm)).

Definition getattr (self : Glitch) (nm : string) : result prefixParameter :=
  match attrs self !! nm with
  | Some p => Ok p
  | None => Raise (AttributeError nm)
  end.

(** [self.add_param(p)]: [setattr(self, p.name, p)] and
    [self.params += [p.name]]. *)
Definition add_param (self : Glitch) (p : prefixParameter) : Glitch :=
  {| params := params self ++ [par_name p];
     attrs := <[par_name p := p]> (attrs self);
     glitch_indices := glitch_indices self;
     deriv_funcs := deriv_funcs self |}.

(** [getattr(self, nm).value = v] *)
Definition set_value (self : Glitch) (nm : string) (v : R) : result Glitch :=
  p ← getattr self nm;
  Ok {| params := params self;
        attrs := <[nm := {| par_prefix := par_prefix p;
                            par_index := par_index p;
                            par_value := v |}]> (attrs self);
        glitch_indices := glitch_indices self;
        deriv_funcs := deriv_funcs self |}.

(** [self.register_deriv_funcs(getattr(self, fn), nm)].  The method
    belongs to the base class of the component; it is taken to record the
    pair in the registry, which no operation below reads. *)
Definition register_deriv_funcs (self : Glitch) (fn nm : string) : Glitch :=
  {| params := params self;
     attrs := attrs self;
     glitch_indices := glitch_indices self;
     deriv_funcs := deriv_funcs self ++ [(fn, nm)] |}.

(** [Glitch.__init__], with the epoch of the template glitch given:
    the seven index-1 parameters, in the order of the [add_param] calls. *)
Definition init (glep_1 : R) : Glitch :=
  foldl add_param
    {| params := []; attrs := ∅; glitch_indices := []; deriv_funcs := [] |}
    [ mkParam GLPH 1 0; mkParam GLEP 1 glep_1; mkParam GLF0 1 0;
      mkParam GLF1 1 0; mkParam GLF2 1 0; mkParam GLF0D 1 0;
      mkParam GLTD 1 0 ].

(** ** Iterating over a Python set

    [for idx in set(self.glitch_indices)] visits every distinct index
    once, in an order the language does not fix.  The order is a
    parameter of the model. *)
Class SetOrder : Type := {
  set_iter : list nat → list nat;
  set_iter_NoDup : ∀ l, NoDup (set_iter l);
  set_iter_elem : ∀ l x, x ∈ set_iter l ↔ x ∈ l
}.

(** One admissible order: first occurrences, left to right. *)
Definition first_seen_order : SetOrder :=
  {| set_iter := remove_dups;
     set_iter_NoDup := NoDup_remove_dups;
     set_iter_elem := λ l x, elem_of_remove_dups l x |}.

(** ** Validation: [Glitch.setup] *)

Definition glitch_prop : list string :=
  ["GLPH_"; "GLF0_"; "GLF1_"; "GLF2_"; "GLF0D_"; "GLTD_"].

(** [param[0:-1]] *)
Fixpoint but_last (s : string) : string :=
  match s with
  | EmptyString => EmptyString
  | String c EmptyString => EmptyString
  | String c s' => String c (but_last s')
  end.

(** [[getattr(self, y).index for x in self.glitch_prop
                              for y in self.params if x in y]] *)
Definition collect_indices (self : Glitch) : result (list nat) :=
  forM (λ y, p ← getattr self y; Ok (par_index p))
       (flat_map (λ x, filter (λ y, str_in x y) (params self)) glitch_prop).

(** The two errors that [setup] raises. *)
Definition epoch_error (idx : nat) : exn :=
  MissingParameter "Glitch" ("GLEP_" +:+ str idx)
    ("Glicth Epoch is needed for Glicth " +:+ str idx +:+ ".").

Definition decay_error (idx : nat) : exn :=
  MissingParameter "Glitch" ("GLTD_" +:+ str idx)
    ("None zero GLF0D_" +:+ str idx +:+
     " parameter needs a none zero GLTD_" +:+ str idx +:+ " parameter").

(** The body of [for param in self.glitch_prop] for the index [idx]. *)
Definition setup_param (idx : nat) (self : Glitch) (param : string)
  : result Glitch :=
  self ←
    (if hasattr self (param +:+ str idx) then Ok self
     else
       param0 ← getattr self (param +:+ "1");
       set_value (add_param self (new_param param0 idx)) (param +:+ str idx) 0);
  Ok (register_deriv_funcs self ("d_phase_d_" +:+ but_last param)
        (param +:+ str idx)).

(** The body of [for idx in set(self.glitch_indices)]. *)
Definition setup_index (self : Glitch) (idx : nat) : result Glitch :=
  if hasattr self ("GLEP_" +:+ str idx) then
    foldM (setup_param idx) self glitch_prop
  else Raise (epoch_error idx).

(** The body of [for glf0dnm in glf0dparams]. *)
Definition check_decay (self : Glitch) (_ : unit) (glf0dnm : string)
  : result unit :=
  glf0d ← getattr self glf0dnm;
  let idx := par_index glf0d in
  if Req_dec_T (par_value glf0d) 0 then Ok tt
  else
    gltd ← getattr self ("GLTD_" +:+ str idx);
    if Req_dec_T (par_value gltd) 0 then Raise (decay_error idx)
    else Ok tt.

Section Setup.
Context `{SetOrder}.

(** [Glitch.setup]; the [setup] of the base class does nothing. *)
Definition setup (self : Glitch) : result Glitch :=
  idxs ← collect_indices self;
  let self := {| params := params self;
                 attrs := attrs self;
                 glitch_indices := idxs;
                 deriv_funcs := deriv_funcs self |} in
  self ← foldM setup_index self (set_iter idxs);
  _ ← foldM (check_decay self) tt
        (filter (λ x, startswith x "GLF0D_") (params self));
  Ok self.
End Setup.

(** ** Arrays *)

#[global] Instance Rlt_decision (x y : R) : Decision (x < y)%R := Rlt_dec x y.

(** [np.zeros(n)] *)
Definition zeros (n : nat) : list R := replicate n 0%R.

(** [dt > 0.0], elementwise *)
Definition gt0 (dt : list R) : list bool := (λ x, bool_decide (0 < x)%R) <$> dt.

(** [a[mask]] for a boolean mask of the shape of [a]. *)
Fixpoint mask_get (a : list R) (mask : list bool) : list R :=
  match a, mask with
  | x :: a', b :: mask' =>
      if b then x :: mask_get a' mask' else mask_get a' mask'
  | _, _ => []
  end.

(** [a[mask] += v], where [v] has one entry for every [True] of [mask]. *)
Fixpoint mask_iadd (a : list R) (mask : list bool) (v : list R) : list R :=
  match a, mask with
  | x :: a', true :: mask' =>
      match v with
      | y :: v' => (x + y)%R :: mask_iadd a' mask' v'
      | [] => a
      end
  | x :: a', false :: mask' => x :: mask_iadd a' mask' v
  | _, _ => a
  end.

(** [np.where(mask)[0]]: the positions of the [True] entries, ascending. *)
Fixpoint where_from (i : nat) (mask : list bool) : list nat :=
  match mask with
  | [] => []
  | b :: mask' =>
      if b then i :: where_from (S i) mask' else where_from (S i) mask'
  end.
Definition np_where (mask : list bool) : list nat := where_from 0 mask.

(** [a[idxs]] for an array of positions, all of them inside [a]. *)
Definition idx_get (a : list R) (idxs : list nat) : list R :=
  (λ i, nth i a 0%R) <$> idxs.

(** [a[idxs] = v] *)
Definition idx_set (a : list R) (idxs : list nat) (v : list R) : list R :=
  foldl (λ a iv, <[iv.1 := iv.2]> a) a (zip idxs v).

(** [a[idxs] += v], which numpy performs as [a[idxs] = a[idxs] + v]. *)
Definition idx_iadd (a : list R) (idxs : list nat) (v : list R) : list R :=
  idx_set a idxs (zip_with Rplus (idx_get a idxs) v).

(** [a / d] for an array [a] and a scalar [d].  An empty array is divided
    without any division taking place. *)
Definition array_div (a : list R) (d : R) : result (list R) :=
  match a with
  | [] => Ok []
  | _ => if Req_dec_T d 0 then Raise DivideByZero
         else Ok ((λ x, x / d)%R <$> a)
  end.

(** [dt = ((tbl['tdbld'] - eph) * u.day - delay).to(u.second)].  The
    table column and the delay are arrays of one length, as the timing
    model supplies them; arrays of different lengths are refused (numpy's
    stretching of a one-entry array is left out). *)
Definition dt_seconds (tdbld : list R) (eph : R) (delay : list R)
  : result (list R) :=
  if decide (length tdbld = length delay) then
    Ok (zip_with (λ t d, (t - eph) * day - d)%R tdbld delay)
  else Raise ShapeError.

(** ** The forward model: [Glitch.glitch_phase] *)

(** The polynomial part of the increment, for one entry of [dt[affected]]:
    [dphs + dt * (dF0 + 0.5 * dt * dF1 + 1./6. * dt*dt * dF2)]. *)
Definition poly_term (dphs dF0 dF1 dF2 dt : R) : R :=
  (dphs + dt * (dF0 + 0.5 * dt * dF1 + 1 / 6 * dt * dt * dF2))%R.

(** The body of [for glepnm in glepnames], with [phs] the array
    accumulated so far. *)
Definition glitch_phase_step (self : Glitch) (tdbld delay : list R)
    (phs : list R) (glepnm : string) : result (list R) :=
  glep ← getattr self glepnm;
  let eph := par_value glep in
  let idx := par_index glep in
  dphs ← par_quantity <$> getattr self ("GLPH_" +:+ str idx);
  dF0 ← par_quantity <$> getattr self ("GLF0_" +:+ str idx);
  dF1 ← par_quantity <$> getattr self ("GLF1_" +:+ str idx);
  dF2 ← par_quantity <$> getattr self ("GLF2_" +:+ str idx);
  dt ← dt_seconds tdbld eph delay;
  let affected := gt0 dt in
  dF0D ← par_quantity <$> getattr self ("GLF0D_" +:+ str idx);
  decayterm ←
    (if Req_dec_T dF0D 0 then Ok ((λ _ : R, 0%R) <$> mask_get dt affected)
     else
       tau ← par_quantity <$> getattr self ("GLTD_" +:+ str idx);
       q ← array_div (mask_get dt affected) tau;
       Ok ((λ x : R, dF0D * tau * (1 - exp (- x)))%R <$> (q : list R)));
  Ok (mask_iadd phs affected
        (zip_with Rplus (poly_term dphs dF0 dF1 dF2 <$> mask_get dt affected)
           decayterm)).

Definition glepnames (self : Glitch) : list string :=
  filter (λ x, startswith x "GLEP_") (params self).

Definition glitch_phase (self : Glitch) (tdbld delay : list R)
  : result (list R) :=
  foldM (glitch_phase_step self tdbld delay) (zeros (length tdbld))
    (glepnames self).

(** ** The derivatives *)

(** The longest run of digits that ends the name, and what precedes it. *)
Fixpoint split_index (s : string) : string * string :=
  match s with
  | EmptyString => (EmptyString, EmptyString)
  | String c s' =>
      let '(p, d) := split_index s' in
      match p with
      | EmptyString =>
          if is_digit c then (EmptyString, String c d)
          else (String c EmptyString, d)
      | _ => (String c p, d)
      end
  end.

(** Modelled from the spec: [pint.utils.split_prefixed_name] is not part of
    the sources at hand.  The spec has it "parse the family prefix and
    index from the parameter name": the name is a prefix followed by the
    digits of the index, and the result is the prefix, the index as
    written and the index as a number; a name of another shape is refused. *)
Definition split_prefixed_name (nm : string) : result (string * string * nat) :=
  let '(p, d) := split_index nm in
  match p, d, NilZero.uint_of_string d with
  | String _ _, String _ _, Some u => Ok (p, d, Nat.of_uint u)
  | _, _, _ =>
      Raise (PrefixError ("Unrecognized prefix name pattern'" +:+ nm +:+ "'."))
  end.

(** The common opening of the six derivatives: the name is parsed, its
    prefix compared with the one the operation answers for ([fn] is the
    name the error message gives), then the epoch and the parameter itself
    are read. *)
Definition deriv_args (self : Glitch) (pfx fn : string) (param : string)
  : result (string * nat * R * prefixParameter) :=
  '(p, ids, idv) ← split_prefixed_name param;
  if negb (String.eqb p pfx) then
    Raise (ValueError ("Can not calculate " +:+ fn +:+
                       " with respect to " +:+ param +:+ "."))
  else
    glep ← getattr self ("GLEP_" +:+ ids);
    par ← getattr self param;
    Ok (ids, idv, par_value glep, par).

Definition d_phase_d_GLPH (self : Glitch) (tdbld : list R) (param : string)
    (delay : list R) : result (list R) :=
  '(ids, idv, eph, par_GLPH) ← deriv_args self "GLPH_" "d_phase_d_GLPH" param;
  dt ← dt_seconds tdbld eph delay;
  let affected := np_where (gt0 dt) in
  let dpdGLPH := zeros (length tdbld) in
  Ok (idx_iadd dpdGLPH affected ((λ _ : nat, 1%R) <$> affected)).

Definition d_phase_d_GLF0 (self : Glitch) (tdbld : list R) (param : string)
    (delay : list R) : result (list R) :=
  '(ids, idv, eph, par_GLF0) ← deriv_args self "GLF0_" "d_phase_d_GLF0" param;
  dt ← dt_seconds tdbld eph delay;
  let affected := np_where (gt0 dt) in
  let dpdGLF0 := zeros (length tdbld) in
  Ok (idx_set dpdGLF0 affected (idx_get dt affected)).

Definition d_phase_d_GLF1 (self : Glitch) (tdbld : list R) (param : string)
    (delay : list R) : result (list R) :=
  '(ids, idv, eph, par_GLF1) ← deriv_args self "GLF1_" "d_phase_d_GLF1" param;
  dt ← dt_seconds tdbld eph delay;
  let affected := np_where (gt0 dt) in
  let dpdGLF1 := zeros (length tdbld) in
  Ok (idx_iadd dpdGLF1 affected
        ((λ x : R, 0.5 * x * x)%R <$> idx_get dt affected)).

Definition d_phase_d_GLF2 (self : Glitch) (tdbld : list R) (param : string)
    (delay : list R) : result (list R) :=
  '(ids, idv, eph, par_GLF2) ← deriv_args self "GLF2_" "d_phase_d_GLF2" param;
  dt ← dt_seconds tdbld eph delay;
  let affected := np_where (gt0 dt) in
  let dpdGLF2 := zeros (length tdbld) in
  Ok (idx_iadd dpdGLF2 affected
        ((λ x : R, 1 / 6 * x * x * x)%R <$> idx_get dt affected)).

Definition d_phase_d_GLF0D (self : Glitch) (tdbld : list R) (param : string)
    (delay : list R) : result (list R) :=
  '(ids, idv, eph, par_GLF0D) ←
    deriv_args self "GLF0D_" "d_phase_d_GLF0D" param;
  tau ← par_quantity <$> getattr self ("GLTD_" +:+ str idv);
  dt ← dt_seconds tdbld eph delay;
  let affected := np_where (gt0 dt) in
  let dpdGLF0D := zeros (length tdbld) in
  q ← array_div (Ropp <$> idx_get dt affected) tau;
  Ok (idx_iadd dpdGLF0D affected
        ((λ x : R, tau * (1 - exp x))%R <$> (q : list R))).

Definition d_phase_d_GLTD (self : Glitch) (tdbld : list R) (param : string)
    (delay : list R) : result (list R) :=
  '(ids, idv, eph, par_GLTD) ←
    deriv_args self "GLTD_" "d_phase_d_GLF0D" param;
  if Req_dec_T (par_value par_GLTD) 0 then Ok (zeros (length tdbld))
  else
    glf0d ← par_quantity <$> getattr self ("GLF0D_" +:+ ids);
    let tau := par_quantity par_GLTD in
    dt ← dt_seconds tdbld eph delay;
    let affected := np_where (gt0 dt) in
    let dpdGLTD := zeros (length tdbld) in
    q ← array_div (Ropp <$> idx_get dt affected) tau;
    r ← array_div
          (zip_with (λ e x : R, glf0d * tau * (- exp e) * x)%R q
             (idx_get dt affected))
          (tau * tau);
    Ok (idx_iadd dpdGLTD affected
          (zip_with Rplus ((λ e : R, glf0d * (1 - exp e))%R <$> (q : list R))
             r)).

(** ** Predicates on the parameter store *)

(** The six families that [glitch_prop] lists: all but the epoch. *)
Definition six : list family := [GLPH; GLF0; GLF1; GLF2; GLF0D; GLTD].

(** The invariant that [add_param] maintains: every name in [params]
    denotes an attribute, and an attribute is held under its own name. *)
Definition wf (self : Glitch) : Prop :=
  Forall (λ k, is_Some (attrs self !! k)) (params self) ∧
  map_Forall (λ k p, k = par_name p) (attrs self).

(** The index-1 parameters of the six families, which [__init__] adds. *)
Definition templates (self : Glitch) : Prop :=
  Forall (λ f, is_Some (attrs self !! pname f 1)) six.

#[global] Instance wf_dec self : Decision (wf self).
Proof. unfold wf. apply _. Defined.

#[global] Instance templates_dec self : Decision (templates self).
Proof. unfold templates. apply _. Defined.

(** [i] is the index of a parameter of one of the six families. *)
Definition collected (self : Glitch) (i : nat) : Prop :=
  ∃ k p, k ∈ params self ∧ attrs self !! k = Some p ∧
         par_prefix p ≠ GLEP ∧ par_index p = i.

(** Some collected index has no epoch parameter. *)
Definition missing_epoch (self : Glitch) (i : nat) : Prop :=
  collected self i ∧ attrs self !! pname GLEP i = None.

(** The glitch [i] has a decay amplitude other than 0 and a decay time
    that is 0, be it given as 0 or not given at all. *)
Definition bad_decay (self : Glitch) (i : nat) : Prop :=
  ∃ k p, k ∈ params self ∧ attrs self !! k = Some p ∧
         par_prefix p = GLF0D ∧ par_index p = i ∧ par_value p ≠ 0%R ∧
         match attrs self !! pname GLTD i with
         | Some q => par_value q = 0%R
         | None => True
         end.

(** A store in which every glitch that was found has its epoch and its
    six parameters. *)
Definition complete (s : Glitch) : Prop :=
  ∀ i, collected s i →
       is_Some (attrs s !! pname GLEP i) ∧
       Forall (λ f, is_Some (attrs s !! pname f i)) six.

(** The component with [self.glitch_indices] assigned. *)
Definition with_indices (s : Glitch) (idxs : list nat) : Glitch :=
  {| params := params s; attrs := attrs s; glitch_indices := idxs;
     deriv_funcs := deriv_funcs s |}.

(** The glitch [n] as the evaluation reads it, when the store holds its
    seven parameters: the epoch as its value (an MJD, in days), the six
    others as quantities, [GLTD] hence in seconds. *)
Record event_values : Type := mkEvent {
  ev_GLEP : R;
  ev_GLPH : R;
  ev_GLF0 : R;
  ev_GLF1 : R;
  ev_GLF2 : R;
  ev_GLF0D : R;
  ev_GLTD : R
}.

Definition event (s : Glitch) (n : nat) : option event_values :=
  glep ← attrs s !! pname GLEP n;
  glph ← attrs s !! pname GLPH n;
  glf0 ← attrs s !! pname GLF0 n;
  glf1 ← attrs s !! pname GLF1 n;
  glf2 ← attrs s !! pname GLF2 n;
  glf0d ← attrs s !! pname GLF0D n;
  gltd ← attrs s !! pname GLTD n;
  Some {| ev_GLEP := par_value glep; ev_GLPH := par_quantity glph;
          ev_GLF0 := par_quantity glf0; ev_GLF1 := par_quantity glf1;
          ev_GLF2 := par_quantity glf2; ev_GLF0D := par_quantity glf0d;
          ev_GLTD := par_quantity gltd |}.



(** The increment of the phase that one glitch causes at a time [dt]
    after it, in closed form. *)
Definition decay_term (dF0D tau dt : R) : R :=
  if Req_dec_T dF0D 0 then 0%R
  else (dF0D * tau * (1 - exp (- (dt / tau))))%R.

Definition event_phase (ev : event_values) (dt : R) : R :=
  (poly_term (ev_GLPH ev) (ev_GLF0 ev) (ev_GLF1 ev) (ev_GLF2 ev) dt
   + decay_term (ev_GLF0D ev) (ev_GLTD ev) dt)%R.

(** The value of a derivative at one entry: [h] of the time since the
    glitch where the glitch has taken place, added to the 0 the array was
    made with; 0 elsewhere. *)
Definition deriv_entry (h : R → R) (x : R) : R :=
  if bool_decide (0 < x)%R then (0 + h x)%R else 0%R.

(** The phase of one glitch computed alone: the loop body run on an array
    of zeros. *)
Definition contribution (self : Glitch) (tdbld delay : list R)
    (glepnm : string) : result (list R) :=
  glitch_phase_step self tdbld delay (zeros (length tdbld)) glepnm.

(** The sum of arrays of length [n], entry by entry. *)
Definition sum_arrays (n : nat) (incs : list (list R)) : list R :=
  foldl (zip_with Rplus) (zeros n) incs.

(** An event with its six quantities set to 0: the glitch is absent. *)
Definition absent (ev : event_values) : event_values :=
  mkEvent (ev_GLEP ev) 0 0 0 0 0 0.

(** A store with the given parameters, added in order. *)
Definition store_of (ps : list prefixParameter) : Glitch :=
  foldl add_param
    {| params := []; attrs := ∅; glitch_indices := []; deriv_funcs := [] |} ps.

(** [s'] holds the parameters of [s], no more and no less. *)
Definition same_store (s s' : Glitch) : Prop :=
  params s' = params s ∧ attrs s' = attrs s.

(** [s'] holds everything [s] holds, unchanged, and besides that only
    parameters of value 0 of the six families at indices in [I]. *)
Definition extends (I : nat → Prop) (s s' : Glitch) : Prop :=
  glitch_indices s' = glitch_indices s ∧
  (∀ k p, attrs s !! k = Some p → attrs s' !! k = Some p) ∧
  (∀ k p, attrs s' !! k = Some p →
     attrs s !! k = Some p ∨
     (attrs s !! k = None ∧
      ∃ f i, f ≠ GLEP ∧ I i ∧ k = pname f i ∧ p = mkParam f i 0)) ∧
  (∀ k, k ∈ params s → k ∈ params s') ∧
  (∀ k, k ∈ params s' →
     k ∈ params s ∨ (attrs s !! k = None ∧ is_Some (attrs s' !! k))).

(** [getattr(self, 'd_phase_d_' + param[0:-1])]: the derivative that
    [setup] registers for a family.  There is none for the epoch. *)
Definition d_phase_d (f : family)
  : Glitch → list R → string → list R → result (list R) :=
  match f with
  | GLPH => d_phase_d_GLPH
  | GLF0 => d_phase_d_GLF0
  | GLF1 => d_phase_d_GLF1
  | GLF2 => d_phase_d_GLF2
  | GLF0D => d_phase_d_GLF0D
  | GLTD => d_phase_d_GLTD
  | GLEP => λ _ _ _ _, Raise (AttributeError "d_phase_d_GLEP")
  end.


(** The invariant of an event that [setup] checks: a decay amplitude
    other than 0 comes with a decay time other than 0. *)
Definition valid_event (ev : event_values) : Prop :=
  ev_GLF0D ev ≠ 0%R → ev_GLTD ev ≠ 0%R.

(** ** Example stores *)

(** One glitch at MJD 55000 with a frequency step and a decaying part
    that lasts one day. *)
Definition one_glitch : Glitch :=
  store_of [ mkParam GLPH 1 0; mkParam GLEP 1 55000; mkParam GLF0 1 1;
             mkParam GLF1 1 0; mkParam GLF2 1 0; mkParam GLF0D 1 1;
             mkParam GLTD 1 1 ].

Definition one_glitch_event : event_values :=
  mkEvent 55000 0 1 0 0 1 (1 * day).

(** Two glitches that overlap: one at MJD 55000 with a decaying part,
    one at MJD 55010 with a frequency step; then the same store with the
    quantities of the second, and of the first, set to 0. *)
Definition two_glitches : Glitch :=
  store_of [ mkParam GLPH 1 0; mkParam GLEP 1 55000; mkParam GLF0 1 1;
             mkParam GLF1 1 0; mkParam GLF2 1 0; mkParam GLF0D 1 1;
             mkParam GLTD 1 1;
             mkParam GLPH 5 0; mkParam GLEP 5 55010; mkParam GLF0 5 2;
             mkParam GLF1 5 0; mkParam GLF2 5 0; mkParam GLF0D 5 0;
             mkParam GLTD 5 0 ].

Definition first_glitch_alone : Glitch :=
  store_of [ mkParam GLPH 1 0; mkParam GLEP 1 55000; mkParam GLF0 1 1;
             mkParam GLF1 1 0; mkParam GLF2 1 0; mkParam GLF0D 1 1;
             mkParam GLTD 1 1;
             mkParam GLPH 5 0; mkParam GLEP 5 55010; mkParam GLF0 5 0;
             mkParam GLF1 5 0; mkParam GLF2 5 0; mkParam GLF0D 5 0;
             mkParam GLTD 5 0 ].

Definition second_glitch_alone : Glitch :=
  store_of [ mkParam GLPH 1 0; mkParam GLEP 1 55000; mkParam GLF0 1 0;
             mkParam GLF1 1 0; mkParam GLF2 1 0; mkParam GLF0D 1 0;
             mkParam GLTD 1 0;
             mkParam GLPH 5 0; mkParam GLEP 5 55010; mkParam GLF0 5 2;
             mkParam GLF1 5 0; mkParam GLF2 5 0; mkParam GLF0D 5 0;
             mkParam GLTD 5 0 ].

(** The component as [__init__] leaves it, with the epoch of the first
    glitch read from a par file, and nothing else. *)
Definition default_glitch : Glitch := init 55000.

(** The same with one more line in the par file: the epoch of a third
    glitch, and no other parameter of that glitch. *)
Definition epoch_only_glitch : Glitch :=
  add_param (init 55000) (mkParam GLEP 3 56000).

(** What [setup] makes of [default_glitch]: the same parameters, the
    index 1 found once in each of the six families, and the six derivatives
    registered. *)
Definition default_after_setup : Glitch :=
  {| params := params default_glitch;
     attrs := attrs default_glitch;
     glitch_indices := [1; 1; 1; 1; 1; 1];
     deriv_funcs :=
       [ ("d_phase_d_GLPH", "GLPH_1"); ("d_phase_d_GLF0", "GLF0_1");
         ("d_phase_d_GLF1", "GLF1_1"); ("d_phase_d_GLF2", "GLF2_1");
         ("d_phase_d_GLF0D", "GLF0D_1"); ("d_phase_d_GLTD", "GLTD_1") ] |}.

(** A par file that gives the first glitch its epoch and a step in
    frequency, and of a second glitch the step in frequency only. *)
Definition second_glitch_without_epoch : Glitch :=
  store_of [ mkParam GLEP 1 55000; mkParam GLF0 1 1; mkParam GLF0 2 1 ].

(** ** Writing the parameters out: [Glitch.print_par] *)

(** Every attribute that is a parameter has its name in [params], as
    [add_param] sees to. *)
Definition listed (self : Glitch) : Prop :=
  map_Forall (λ k _, k ∈ params self) (attrs self).

#[global] Instance listed_dec self : Decision (listed self).
Proof. unfold listed. apply _. Defined.

Section PrintPar.
Context `{SetOrder}.

(** [par.as_parfile_line()] belongs to the parameter class, which is not
    part of the sources at hand: it is a parameter of the model. *)
Variable as_parfile_line : prefixParameter → string.

(** The body of [for param in ['GLEP_',] + self.glitch_prop]; [acc] is
    the string [result] built so far. *)
Definition print_par_param (self : Glitch) (idx : nat) (acc : string)
    (param : string) : result string :=
  par ← getattr self (param +:+ str idx);
  Ok (acc +:+ as_parfile_line par).

(** [Glitch.print_par].  Before [setup] has run the attribute
    [glitch_indices] does not exist; the model holds the empty list then. *)
Definition print_par (self : Glitch) : result string :=
  foldM (λ acc idx,
           foldM (print_par_param self idx) acc ("GLEP_" :: glitch_prop))
    EmptyString (set_iter (glitch_indices self)).
End PrintPar.

(** Names written out in the code, folded back into [pname]. *)
Ltac fold_names :=
  repeat match goal with
  | |- context [ "GLPH_" +:+ str ?i ] => change ("GLPH_" +:+ str i) with (pname GLPH i)
  | |- context [ "GLEP_" +:+ str ?i ] => change ("GLEP_" +:+ str i) with (pname GLEP i)
  | |- context [ "GLF0_" +:+ str ?i ] => change ("GLF0_" +:+ str i) with (pname GLF0 i)
  | |- context [ "GLF1_" +:+ str ?i ] => change ("GLF1_" +:+ str i) with (pname GLF1 i)
  | |- context [ "GLF2_" +:+ str ?i ] => change ("GLF2_" +:+ str i) with (pname GLF2 i)
  | |- context [ "GLF0D_" +:+ str ?i ] => change ("GLF0D_" +:+ str i) with (pname GLF0D i)
  | |- context [ "GLTD_" +:+ str ?i ] => change ("GLTD_" +:+ str i) with (pname GLTD i)
  end.

(** The six derivatives begin alike: the name is parsed, then the epoch
    and the parameter are read.  [args_eq] is the equation of [deriv_args]
    at a name of the family. *)
Ltac deriv_begin args_eq s F :=
  destruct F; [|done|..]; simpl;
  unfold d_phase_d_GLPH, d_phase_d_GLF0, d_phase_d_GLF1, d_phase_d_GLF2,
    d_phase_d_GLF0D, d_phase_d_GLTD;
  [rewrite (args_eq s GLPH)|rewrite (args_eq s GLF0)
  |rewrite (args_eq s GLF1)|rewrite (args_eq s GLF2)
  |rewrite (args_eq s GLF0D)|rewrite (args_eq s GLTD)];
  unfold getattr.
(* ================================================================== *)
(** * Theory *)

(** ** Names *)
Lemma to_uint_nonnil n : Nat.to_uint n ≠ Decimal.Nil.
Proof.
  rewrite <- (Unsigned.of_to n) at 1. rewrite Unsigned.to_of.
  apply unorm_nonnil.
Qed.

Lemma str_unfold n : str n = NilEmpty.string_of_uint (Nat.to_uint n).
Proof.
  unfold str, NilZero.string_of_uint.
  pose proof (to_uint_nonnil n). by destruct (Nat.to_uint n).
Qed.

Lemma string_of_uint_digits d : str_all is_digit (NilEmpty.string_of_uint d) = true.
Proof. induction d; simpl; auto. Qed.

Lemma str_digits n : str_all is_digit (str n) = true.
Proof. rewrite str_unfold. apply string_of_uint_digits. Qed.

Lemma str_nonempty n : ∃ c s, str n = String c s.
Proof.
  rewrite str_unfold. pose proof (to_uint_nonnil n).
  destruct (Nat.to_uint n); simpl; eauto; done.
Qed.

Lemma str_inj n m : str n = str m → n = m.
Proof.
  rewrite !str_unfold. intros E.
  apply Unsigned.to_uint_inj.
  apply (f_equal NilEmpty.uint_of_string) in E.
  rewrite !NilEmpty.usu in E. congruence.
Qed.

Lemma int_str n : NilZero.uint_of_string (str n) = Some (Nat.to_uint n).
Proof. unfold str. apply NilZero.usu, to_uint_nonnil. Qed.

Lemma pname_inj f i f' i' : pname f i = pname f' i' → f = f' ∧ i = i'.
Proof.
  unfold pname. intros E.
  destruct (str_nonempty i) as (c & s & Hi), (str_nonempty i') as (c' & s' & Hi').
  pose proof (str_digits i) as Di. pose proof (str_digits i') as Di'.
  assert (f = f') as ->.
  { rewrite Hi in E, Di. rewrite Hi' in E, Di'. simpl in Di, Di'.
    apply andb_prop in Di as [Dc _]. apply andb_prop in Di' as [Dc' _].
    destruct f, f'; simpl in E; try done; exfalso;
      injection E; intros; subst; by vm_compute in Dc, Dc'. }
  split; [done|]. apply str_inj.
  destruct f'; simpl in E; by simplify_eq.
Qed.

Lemma str_in_digits f s : str_all is_digit s = true → str_in (prefix_str f) s = false.
Proof.
  induction s as [|c s IH]; [by destruct f|].
  cbn [str_all str_in]. intros [Hc Hs]%andb_prop. rewrite (IH Hs), orb_false_r.
  destruct f; cbn [prefix_str String.prefix];
    (destruct (ascii_dec "G" c) as [<-|]; [by vm_compute in Hc|done]).
Qed.

Lemma str_in_pname f f' i :
  str_in (prefix_str f) (pname f' i) = bool_decide (f = f').
Proof.
  unfold pname. pose proof (str_in_digits f _ (str_digits i)) as Hs.
  revert Hs. generalize (str i). intros s Hs.
  destruct f, f'; cbv [String.append prefix_str] in *; simpl; rewrite ?Hs; try done;
    by destruct s.
Qed.

Lemma startswith_pname f f' i :
  startswith (pname f' i) (prefix_str f) = bool_decide (f = f').
Proof.
  unfold pname, startswith.
  destruct f, f'; cbv [String.append prefix_str]; simpl; try done;
    by destruct (str i).
Qed.

Lemma split_index_digits s :
  str_all is_digit s = true → split_index s = (EmptyString, s).
Proof.
  induction s as [|c s IH]; [done|].
  simpl. intros [Hc Hs]%andb_prop. by rewrite (IH Hs), Hc.
Qed.

Lemma split_prefixed_name_pname f i :
  split_prefixed_name (pname f i) = Ok (prefix_str f, str i, i).
Proof.
  unfold split_prefixed_name, pname.
  assert (split_index (prefix_str f +:+ str i) = (prefix_str f, str i)) as ->.
  { pose proof (split_index_digits _ (str_digits i)) as Hs.
    destruct f; cbv [String.append prefix_str]; simpl; by rewrite Hs. }
  pose proof (int_str i) as Hi.
  destruct (str_nonempty i) as (c & s & Hs).
  rewrite Hs in Hi |- *. simpl in Hi.
  destruct f; simpl; by rewrite Hi, Unsigned.of_to.
Qed.
(** ** The result monad *)

Lemma foldM_app {A B} (body : A → B → result A) acc xs ys :
  foldM body acc (xs ++ ys) = (acc' ← foldM body acc xs; foldM body acc' ys).
Proof.
  revert acc. induction xs as [|x xs IH]; intros acc; [done|].
  simpl. destruct (body acc x) as [acc'|e]; simpl; [apply IH|done].
Qed.

Lemma forM_Ok {A B} (f : A → result B) xs ys :
  forM f xs = Ok ys → Forall2 (λ x y, f x = Ok y) xs ys.
Proof.
  revert ys. induction xs as [|x xs IH]; intros ys; simpl.
  - intros [= <-]. constructor.
  - destruct (f x) as [y|e] eqn:Hx; [|done]. simpl.
    destruct (forM f xs) as [ys'|e]; [|done]. simpl.
    intros [= <-]. constructor; auto.
Qed.

Lemma forM_total {A B} (f : A → result B) xs :
  Forall (λ x, ∃ y, f x = Ok y) xs → ∃ ys, forM f xs = Ok ys.
Proof.
  induction 1 as [|x xs [y Hy] _ [ys Hys]]; simpl; [by eexists|].
  rewrite Hy. simpl. rewrite Hys. simpl. by eexists.
Qed.

(** A loop whose body only checks: it passes when every check passes, and
    otherwise raises what the first failing check raises. *)
Lemma foldM_check_Ok {B} (check : unit → B → result unit) xs :
  Forall (λ x, check tt x = Ok tt) xs → foldM check tt xs = Ok tt.
Proof. induction 1 as [|x xs Hx _ IH]; simpl; [done|]. by rewrite Hx. Qed.

Lemma foldM_check_Raise {B} (check : unit → B → result unit) xs r :
  foldM check tt xs = r → r = Ok tt ∨ ∃ x e, x ∈ xs ∧ check tt x = Raise e ∧ r = Raise e.
Proof.
  intros <-. induction xs as [|x xs IH]; simpl; [by left|].
  destruct (check tt x) as [[]|e] eqn:Hx; simpl.
  - destruct IH as [->|(y & e & Hy & He & ->)]; [by left|right].
    exists y, e. split_and!; [by right|done..].
  - right. exists x, e. split_and!; [by left|done..].
Qed.

(** ** The parameter store *)

Lemma getattr_Some self k p : attrs self !! k = Some p → getattr self k = Ok p.
Proof. unfold getattr. by intros ->. Qed.

Lemma getattr_None self k :
  attrs self !! k = None → getattr self k = Raise (AttributeError k).
Proof. unfold getattr. by intros ->. Qed.

Lemma hasattr_true self k : is_Some (attrs self !! k) → hasattr self k = true.
Proof. intros. by apply bool_decide_eq_true_2. Qed.

Lemma hasattr_false self k : attrs self !! k = None → hasattr self k = false.
Proof. intros E. apply bool_decide_eq_false_2. rewrite E. by intros [? ?]. Qed.

Lemma wf_params self k : wf self → k ∈ params self → is_Some (attrs self !! k).
Proof. intros [Hp _] Hk. by eapply Forall_forall in Hp. Qed.

Lemma wf_name self k p : wf self → attrs self !! k = Some p → k = par_name p.
Proof. intros [_ Hn] Hk. by apply (Hn k p). Qed.

Lemma wf_lookup self f i p :
  wf self → attrs self !! pname f i = Some p → par_prefix p = f ∧ par_index p = i.
Proof.
  intros Hwf Hk. apply (wf_name _ _ _ Hwf) in Hk.
  unfold par_name in Hk. apply pname_inj in Hk as [-> ->]. done.
Qed.

Lemma six_spec f : f ∈ six ↔ f ≠ GLEP.
Proof.
  unfold six. split.
  - intros Hf ->. by repeat (apply elem_of_cons in Hf as [Hf|Hf]; [done|]);
      apply elem_of_nil in Hf.
  - intros Hf. destruct f; try done; repeat (first [by left | right]).
Qed.

Lemma glitch_prop_six : glitch_prop = prefix_str <$> six.
Proof. reflexivity. Qed.

Lemma pname_1 f : prefix_str f +:+ "1" = pname f 1.
Proof. reflexivity. Qed.

(** ** [extends] is a preorder that preserves the invariants *)

Lemma extends_refl I s : extends I s s.
Proof. unfold extends. split_and!; auto. Qed.

Lemma extends_weaken (I J : nat → Prop) s s' :
  (∀ i, I i → J i) → extends I s s' → extends J s s'.
Proof.
  intros HIJ (Hg & H1 & H2 & H3 & H4). split_and!; auto.
  intros k p Hk. destruct (H2 k p Hk) as [?|(? & f & i & ? & ? & ? & ?)]; [by left|right].
  split; [done|]. exists f, i. auto.
Qed.

Lemma extends_trans I s1 s2 s3 :
  extends I s1 s2 → extends I s2 s3 → extends I s1 s3.
Proof.
  intros (Hg & H1 & H2 & H3 & H4) (Hg' & H1' & H2' & H3' & H4').
  split_and!; auto.
  - congruence.
  - intros k p Hk. destruct (H2' k p Hk) as [Hk2|(Hn & f & i & ? & ? & ? & ?)].
    + by apply H2.
    + right. split; [|by exists f, i].
      destruct (attrs s1 !! k) as [q|] eqn:Hq; [|done].
      apply H1 in Hq. congruence.
  - intros k Hk. destruct (H4' k Hk) as [Hk2|[Hn Hs]].
    + destruct (H4 k Hk2) as [?|[? [q Hq]]]; [by left|right].
      split; [done|]. exists q. by apply H1'.
    + right. split; [|done].
      destruct (attrs s1 !! k) as [q|] eqn:Hq; [|done].
      apply H1 in Hq. congruence.
Qed.

Lemma extends_wf I s s' : wf s → extends I s s' → wf s'.
Proof.
  intros Hwf (Hg & H1 & H2 & H3 & H4). split.
  - apply Forall_forall. intros k Hk.
    destruct (H4 k Hk) as [Hk'|[_ ?]]; [|done].
    destruct (wf_params _ _ Hwf Hk') as [p Hp]. exists p. by apply H1.
  - intros k p Hk. destruct (H2 k p Hk) as [Hk'|(_ & f & i & _ & _ & -> & ->)].
    + by eapply wf_name.
    + done.
Qed.

Lemma extends_templates I s s' : templates s → extends I s s' → templates s'.
Proof.
  intros Ht (_ & H1 & _). unfold templates in *.
  eapply Forall_impl; [exact Ht|]. intros f [p Hp]. exists p. by apply H1.
Qed.

Lemma extends_epoch I s s' i :
  extends I s s' → attrs s' !! pname GLEP i = attrs s !! pname GLEP i.
Proof.
  intros (_ & H1 & H2 & _).
  destruct (attrs s !! pname GLEP i) as [p|] eqn:Hp; [by apply H1|].
  destruct (attrs s' !! pname GLEP i) as [q|] eqn:Hq; [|done].
  destruct (H2 _ _ Hq) as [?|(_ & f & j & Hf & _ & Hn & _)]; [congruence|].
  apply pname_inj in Hn as [<- _]. done.
Qed.
(** ** The loops of [setup] *)

(** A parameter that is there already is left alone. *)
Lemma setup_param_present idx s x :
  is_Some (attrs s !! (x +:+ str idx)) →
  setup_param idx s x =
    Ok (register_deriv_funcs s ("d_phase_d_" +:+ but_last x) (x +:+ str idx)).
Proof. intros Hk. unfold setup_param. by rewrite hasattr_true. Qed.

(** A parameter that is not there is made from the template, with value 0. *)
Lemma setup_param_absent idx s f t :
  wf s → attrs s !! pname f idx = None → attrs s !! pname f 1 = Some t →
  setup_param idx s (prefix_str f) =
    Ok (register_deriv_funcs
          {| params := params s ++ [pname f idx];
             attrs := <[pname f idx := mkParam f idx 0]> (attrs s);
             glitch_indices := glitch_indices s;
             deriv_funcs := deriv_funcs s |}
          ("d_phase_d_" +:+ but_last (prefix_str f)) (pname f idx)).
Proof.
  intros Hwf Hk Ht. unfold setup_param. fold (pname f idx).
  rewrite hasattr_false by done. rewrite pname_1, (getattr_Some _ _ _ Ht).
  destruct (wf_lookup _ _ _ _ Hwf Ht) as [Hf Hi].
  assert (par_name (new_param t idx) = pname f idx) as Hn
    by (unfold par_name, new_param; simpl; by rewrite Hf).
  unfold set_value, add_param. simpl. rewrite Hn.
  unfold getattr at 1. simpl. rewrite lookup_insert_eq. simpl.
  rewrite insert_insert_eq. by rewrite Hf.
Qed.

Lemma setup_param_spec idx s f :
  wf s → f ≠ GLEP → is_Some (attrs s !! pname f 1) →
  ∃ s', setup_param idx s (prefix_str f) = Ok s' ∧
        extends (eq idx) s s' ∧ is_Some (attrs s' !! pname f idx).
Proof.
  intros Hwf Hf [t Ht].
  destruct (attrs s !! pname f idx) as [p|] eqn:Hk.
  - eexists. split;
      [apply setup_param_present; fold (pname f idx); by rewrite Hk|].
    split; [|simpl; by rewrite Hk].
    unfold extends. simpl. split_and!; auto.
  - eexists. split; [by eapply setup_param_absent|].
    simpl. rewrite lookup_insert_eq. split; [|done].
    unfold extends. simpl. split_and!; [done|..].
    + intros k p Hp. rewrite lookup_insert_ne; [done|congruence].
    + intros k p. rewrite lookup_insert. case_decide as Hd.
      * intros [= <-]. right. subst k. split; [done|]. by exists f, idx.
      * by left.
    + intros k Hk'. apply elem_of_app. by left.
    + intros k [Hk'|Hk']%elem_of_app; [by left|right].
      apply list_elem_of_singleton in Hk' as ->. rewrite lookup_insert_eq. done.
Qed.

Lemma setup_params_spec idx s fs :
  wf s → Forall (λ f, f ≠ GLEP ∧ is_Some (attrs s !! pname f 1)) fs →
  ∃ s', foldM (setup_param idx) s (prefix_str <$> fs) = Ok s' ∧
        extends (eq idx) s s' ∧
        Forall (λ f, is_Some (attrs s' !! pname f idx)) fs.
Proof.
  intros Hwf Hfs. revert s Hwf Hfs.
  induction fs as [|f fs IH]; intros s Hwf Hfs.
  - exists s. split; [done|]. split; [apply extends_refl|constructor].
  - apply Forall_cons in Hfs as [[Hf Ht] Hfs].
    destruct (setup_param_spec idx s f Hwf Hf Ht) as (s1 & E1 & X1 & P1).
    destruct (IH s1) as (s2 & E2 & X2 & P2).
    { by eapply extends_wf. }
    { eapply Forall_impl; [exact Hfs|]. intros g [Hg [t Hgt]].
      split; [done|]. exists t. by apply X1. }
    exists s2. simpl. rewrite E1. simpl. split; [done|].
    split; [by eapply extends_trans|].
    constructor; [|done]. destruct P1 as [p Hp]. exists p. by apply X2.
Qed.

Lemma setup_index_Ok s idx :
  wf s → templates s → is_Some (attrs s !! pname GLEP idx) →
  ∃ s', setup_index s idx = Ok s' ∧ extends (eq idx) s s' ∧
        Forall (λ f, is_Some (attrs s' !! pname f idx)) six.
Proof.
  intros Hwf Ht He. unfold setup_index. fold (pname GLEP idx).
  rewrite hasattr_true by done. rewrite glitch_prop_six.
  apply setup_params_spec; [done|].
  unfold templates in Ht. apply Forall_forall. intros f Hf.
  split; [by apply six_spec|]. by eapply Forall_forall in Ht.
Qed.

Lemma setup_index_Raise s idx :
  attrs s !! pname GLEP idx = None →
  setup_index s idx =
    Raise (epoch_error idx).
Proof.
  intros He. unfold setup_index. fold (pname GLEP idx).
  by rewrite hasattr_false.
Qed.

(** The first loop either meets an index without epoch and raises for
    it, or completes every index of the list. *)
Lemma setup_indices_spec s L :
  wf s → templates s →
  (∃ i, i ∈ L ∧ attrs s !! pname GLEP i = None ∧
        foldM setup_index s L = Raise (epoch_error i)) ∨
  (Forall (λ i, is_Some (attrs s !! pname GLEP i)) L ∧
   ∃ s', foldM setup_index s L = Ok s' ∧ extends (.∈ L) s s' ∧
         Forall (λ i, Forall (λ f, is_Some (attrs s' !! pname f i)) six) L).
Proof.
  revert s. induction L as [|idx L IH]; intros s Hwf Ht.
  - right. split; [constructor|]. exists s. split; [done|].
    split; [apply extends_refl|constructor].
  - destruct (attrs s !! pname GLEP idx) as [p|] eqn:He.
    + destruct (setup_index_Ok s idx Hwf Ht) as (s1 & E1 & X1 & P1);
        [by rewrite He|].
      assert (extends (.∈ idx :: L) s s1) as X1'.
      { eapply extends_weaken; [|exact X1]. intros i <-. by left. }
      destruct (IH s1) as [(i & Hi & Hn & E)|(Hall & s2 & E2 & X2 & P2)].
      { by eapply extends_wf. } { by eapply extends_templates. }
      * left. exists i. split; [by right|].
        rewrite <- (extends_epoch _ _ _ _ X1). split; [done|].
        simpl. rewrite E1. simpl. exact E.
      * assert (extends (.∈ idx :: L) s1 s2) as X2'.
        { eapply extends_weaken; [|exact X2]. intros i ?. by right. }
        right. split.
        { constructor; [by rewrite He|].
          eapply Forall_impl; [exact Hall|]. intros i.
          simpl. by rewrite (extends_epoch _ _ _ _ X1). }
        exists s2. simpl. rewrite E1. simpl. split; [done|].
        split; [by eapply extends_trans|].
        constructor; [|done].
        eapply Forall_impl; [exact P1|]. intros f [q Hq]. exists q.
        by apply X2.
    + left. exists idx. split; [by left|]. split; [done|].
      simpl. by rewrite setup_index_Raise.
Qed.

(** ** Collecting the indices *)

Lemma collect_names s k :
  wf s →
  k ∈ flat_map (λ x, filter (λ y, str_in x y) (params s)) glitch_prop ↔
  k ∈ params s ∧ ∃ p, attrs s !! k = Some p ∧ par_prefix p ≠ GLEP.
Proof.
  intros Hwf. rewrite glitch_prop_six.
  rewrite list_elem_of_In, in_flat_map. setoid_rewrite <- list_elem_of_In.
  split.
  - intros (x & Hx & Hk). apply list_elem_of_fmap in Hx as (f & -> & Hf).
    apply list_elem_of_filter in Hk as [Hin Hk]. split; [done|].
    destruct (wf_params _ _ Hwf Hk) as [p Hp]. exists p. split; [done|].
    pose proof (wf_name _ _ _ Hwf Hp) as ->. unfold par_name in Hin.
    rewrite str_in_pname in Hin. apply bool_decide_unpack in Hin as <-.
    by apply six_spec.
  - intros (Hk & p & Hp & Hf). exists (prefix_str (par_prefix p)).
    split; [apply list_elem_of_fmap; exists (par_prefix p); split; [done|by apply six_spec]|].
    apply list_elem_of_filter. split; [|done].
    pose proof (wf_name _ _ _ Hwf Hp) as ->. unfold par_name.
    rewrite str_in_pname. by apply bool_decide_pack.
Qed.

Lemma collect_indices_spec s :
  wf s → ∃ idxs, collect_indices s = Ok idxs ∧ ∀ i, i ∈ idxs ↔ collected s i.
Proof.
  intros Hwf. unfold collect_indices.
  set (names := flat_map _ _).
  destruct (forM_total (λ y, p ← getattr s y; Ok (par_index p)) names)
    as [idxs E].
  { apply Forall_forall. intros k Hk. apply collect_names in Hk; [|done].
    destruct Hk as (_ & p & Hp & _). exists (par_index p).
    by rewrite (getattr_Some _ _ _ Hp). }
  exists idxs. split; [done|]. apply forM_Ok in E. intros i. split.
  - intros Hi. apply list_elem_of_lookup in Hi as [n Hn].
    destruct (Forall2_lookup_r _ _ _ _ _ E Hn) as (k & Hk & Hf).
    apply list_elem_of_lookup_2, collect_names in Hk; [|done].
    destruct Hk as (Hk & p & Hp & Hne). exists k, p.
    rewrite (getattr_Some _ _ _ Hp) in Hf. simpl in Hf. by injection Hf as <-.
  - intros (k & p & Hk & Hp & Hne & <-).
    assert (k ∈ names) as Hkn by (apply collect_names; eauto).
    apply list_elem_of_lookup in Hkn as [n Hn].
    destruct (Forall2_lookup_l _ _ _ _ _ E Hn) as (j & Hj & Hf).
    rewrite (getattr_Some _ _ _ Hp) in Hf. simpl in Hf. injection Hf as <-.
    by eapply list_elem_of_lookup_2.
Qed.
(** ** The check of the decay term *)

Lemma check_decay_zero s k p :
  attrs s !! k = Some p → par_value p = 0%R → check_decay s tt k = Ok tt.
Proof.
  intros Hp Hv. unfold check_decay. rewrite (getattr_Some _ _ _ Hp). simpl.
  by destruct (Req_dec_T (par_value p) 0).
Qed.

Lemma check_decay_nonzero s k p q :
  attrs s !! k = Some p → par_value p ≠ 0%R →
  attrs s !! pname GLTD (par_index p) = Some q →
  check_decay s tt k =
    if Req_dec_T (par_value q) 0 then Raise (decay_error (par_index p))
    else Ok tt.
Proof.
  intros Hp Hv Hq. unfold check_decay. rewrite (getattr_Some _ _ _ Hp). simpl.
  destruct (Req_dec_T (par_value p) 0); [done|].
  fold_names. by rewrite (getattr_Some _ _ _ Hq).
Qed.

(** The names that the decay check visits. *)
Lemma glf0d_names s k :
  wf s →
  k ∈ filter (λ x, startswith x "GLF0D_") (params s) ↔
  k ∈ params s ∧ ∃ p, attrs s !! k = Some p ∧ par_prefix p = GLF0D.
Proof.
  intros Hwf. rewrite list_elem_of_filter. split.
  - intros [Hs Hk]. split; [done|].
    destruct (wf_params _ _ Hwf Hk) as [p Hp]. exists p. split; [done|].
    pose proof (wf_name _ _ _ Hwf Hp) as ->. unfold par_name in Hs.
    change "GLF0D_" with (prefix_str GLF0D) in Hs.
    rewrite startswith_pname in Hs. by apply bool_decide_unpack in Hs.
  - intros (Hk & p & Hp & Hf). split; [|done].
    pose proof (wf_name _ _ _ Hwf Hp) as ->. unfold par_name.
    change "GLF0D_" with (prefix_str GLF0D).
    rewrite startswith_pname. by apply bool_decide_pack.
Qed.

Lemma decay_check_spec s :
  wf s → complete s →
  (∃ i, bad_decay s i ∧
        foldM (check_decay s) tt
          (filter (λ x, startswith x "GLF0D_") (params s)) =
          Raise (decay_error i)) ∨
  ((∀ i, ¬ bad_decay s i) ∧
   foldM (check_decay s) tt
     (filter (λ x, startswith x "GLF0D_") (params s)) = Ok tt).
Proof.
  intros Hwf Hc.
  assert (∀ k, k ∈ filter (λ x, startswith x "GLF0D_") (params s) →
    ∃ p q, k ∈ params s ∧ attrs s !! k = Some p ∧ par_prefix p = GLF0D ∧
           attrs s !! pname GLTD (par_index p) = Some q) as Hnames.
  { intros k (Hk & p & Hp & Hf)%glf0d_names; [|done].
    destruct (Hc (par_index p)) as [_ Hall].
    { exists k, p. split_and!; try done. congruence. }
    rewrite Forall_forall in Hall.
    destruct (Hall GLTD) as [q Hq]; [by apply six_spec|]. by exists p, q. }
  destruct (foldM_check_Raise (check_decay s)
              (filter (λ x, startswith x "GLF0D_") (params s)) _ eq_refl)
    as [E|(k & e & Hk & Hck & E)].
  - right. split; [|done]. intros i (k & p & Hk & Hp & Hf & Hi & Hv & Hq).
    assert (k ∈ filter (λ x, startswith x "GLF0D_") (params s)) as Hkf
      by (apply glf0d_names; eauto).
    destruct (Hnames k Hkf) as (p' & q & _ & Hp' & _ & Hq').
    assert (p' = p) as -> by congruence. rewrite Hi in Hq'. rewrite Hq' in Hq.
    assert (check_decay s tt k = Raise (decay_error (par_index p))) as Hr.
    { rewrite (check_decay_nonzero _ _ _ q Hp Hv); [|by rewrite Hi].
      by destruct (Req_dec_T (par_value q) 0). }
    clear -E Hkf Hr. revert E.
    induction (filter _ _) as [|x xs IH]; [by apply elem_of_nil in Hkf|].
    simpl. apply elem_of_cons in Hkf as [<-|Hkf]; [by rewrite Hr|].
    destruct (check_decay s tt x) as [[]|]; simpl; [auto|done].
  - left. destruct (Hnames k Hk) as (p & q & Hkp & Hp & Hf & Hq).
    destruct (Req_dec_T (par_value p) 0) as [Hv|Hv].
    { by rewrite (check_decay_zero _ _ _ Hp Hv) in Hck. }
    rewrite (check_decay_nonzero _ _ _ _ Hp Hv Hq) in Hck.
    destruct (Req_dec_T (par_value q) 0) as [Hq0|]; [|done].
    injection Hck as <-. exists (par_index p). split; [|done].
    exists k, p. split_and!; try done. by rewrite Hq.
Qed.
(** ** What [extends] preserves *)

Lemma extends_collected I s s' i :
  extends I s s' → collected s' i → collected s i ∨ I i.
Proof.
  intros (_ & H1 & H2 & H3 & H4) (k & p & Hk & Hp & Hf & Hi).
  destruct (H2 k p Hp) as [Hp0|(Hn & f & j & _ & Hj & _ & ->)].
  - left. exists k, p. split_and!; try done.
    destruct (H4 k Hk) as [?|[Hn _]]; [done|congruence].
  - right. by simpl in Hi; subst j.
Qed.

Lemma extends_collected_mono I s s' i :
  extends I s s' → collected s i → collected s' i.
Proof.
  intros (_ & H1 & _ & H3 & _) (k & p & Hk & Hp & Hf & Hi).
  exists k, p. split_and!; auto.
Qed.

Lemma extends_bad_decay I s s' i :
  extends I s s' → bad_decay s' i ↔ bad_decay s i.
Proof.
  intros (_ & H1 & H2 & H3 & H4). split.
  - intros (k & p & Hk & Hp & Hf & Hi & Hv & Hq).
    destruct (H2 k p Hp) as [Hp0|(_ & f & j & _ & _ & _ & ->)]; [|done].
    exists k, p. split_and!; try done.
    { destruct (H4 k Hk) as [?|[Hn _]]; [done|congruence]. }
    destruct (attrs s !! pname GLTD i) as [q|] eqn:Hq0; [|done].
    by rewrite (H1 _ _ Hq0) in Hq.
  - intros (k & p & Hk & Hp & Hf & Hi & Hv & Hq).
    exists k, p. split_and!; auto.
    destruct (attrs s' !! pname GLTD i) as [q|] eqn:Hq'; [|done].
    destruct (H2 _ _ Hq') as [Hq0|(_ & f & j & _ & _ & _ & ->)]; [|done].
    by rewrite Hq0 in Hq.
Qed.

(** ** [setup] as a whole *)

Section SetupSpec.
Context `{SetOrder}.

Lemma setup_unfold s :
  setup s =
    (idxs ← collect_indices s;
     s' ← foldM setup_index (with_indices s idxs) (set_iter idxs);
     _ ← foldM (check_decay s') tt
           (filter (λ x, startswith x "GLF0D_") (params s'));
     Ok s').
Proof. reflexivity. Qed.

(** The three ways in which [setup] can end, on a store that has the
    templates: without an epoch for some index that was found, with a
    decay amplitude that has no decay time, or with every glitch that was
    found complete. *)
Lemma setup_spec s :
  wf s → templates s →
  (∃ i, missing_epoch s i ∧ setup s = Raise (epoch_error i)) ∨
  ((∀ i, ¬ missing_epoch s i) ∧
   ∃ i, bad_decay s i ∧ setup s = Raise (decay_error i)) ∨
  ((∀ i, ¬ missing_epoch s i) ∧ (∀ i, ¬ bad_decay s i) ∧
   ∃ s', setup s = Ok s' ∧
         (∀ i, i ∈ glitch_indices s' ↔ collected s i) ∧
         extends (collected s) (with_indices s (glitch_indices s')) s' ∧
         wf s' ∧ complete s').
Proof.
  intros Hwf Ht. rewrite setup_unfold.
  destruct (collect_indices_spec s Hwf) as (idxs & -> & Hidxs). simpl.
  set (s0 := with_indices s idxs).
  assert (wf s0) as Hwf0 by exact Hwf.
  assert (templates s0) as Ht0 by exact Ht.
  destruct (setup_indices_spec s0 (set_iter idxs) Hwf0 Ht0)
    as [(i & Hi & Hn & ->)|(Hall & s' & -> & X & P)].
  { left. exists i. split; [|done]. split; [|done].
    by apply Hidxs, set_iter_elem. }
  right. simpl.
  assert (extends (collected s) s0 s') as X'.
  { eapply extends_weaken; [|exact X]. intros i Hi.
    by apply Hidxs, set_iter_elem. }
  assert (∀ i, ¬ missing_epoch s i) as Hne.
  { intros i [Hc Hn]. apply Hidxs, set_iter_elem in Hc.
    rewrite Forall_forall in Hall. destruct (Hall i Hc) as [p Hp].
    change (attrs s0 !! pname GLEP i) with (attrs s !! pname GLEP i) in Hp.
    congruence. }
  assert (wf s') as Hwf' by (by eapply extends_wf).
  assert (complete s') as Hc'.
  { intros i Hi.
    assert (collected s i) as Hci.
    { destruct (extends_collected _ _ _ _ X' Hi) as [?|?]; done. }
    apply Hidxs, set_iter_elem in Hci. split.
    - rewrite (extends_epoch _ _ _ _ X).
      rewrite Forall_forall in Hall. by apply Hall.
    - rewrite Forall_forall in P. by apply P. }
  destruct (decay_check_spec s' Hwf' Hc') as [(i & Hb & ->)|[Hnb ->]]; simpl.
  - left. split; [done|]. exists i. split; [|done].
    by apply (extends_bad_decay _ _ _ _ X') in Hb.
  - right. split; [done|]. split.
    { intros i Hb. apply (Hnb i). by apply (extends_bad_decay _ _ _ _ X'). }
    exists s'. destruct X as (Hg & ?). simpl in Hg.
    split; [done|]. rewrite Hg. split; [done|]. split; [done|]. done.
Qed.
End SetupSpec.
(** ** [setup] on a complete store *)

Lemma same_store_refl s : same_store s s.
Proof. by split. Qed.

Lemma same_store_trans s1 s2 s3 :
  same_store s1 s2 → same_store s2 s3 → same_store s1 s3.
Proof. intros [? ?] [? ?]. split; congruence. Qed.

Lemma same_store_wf s s' : same_store s s' → wf s → wf s'.
Proof. intros [Hp Ha]. unfold wf. by rewrite Hp, Ha. Qed.

Lemma same_store_collected s s' i :
  same_store s s' → collected s' i ↔ collected s i.
Proof. intros [Hp Ha]. unfold collected. by rewrite Hp, Ha. Qed.

Lemma same_store_complete s s' : same_store s s' → complete s → complete s'.
Proof.
  intros Hs Hc i Hi. apply (same_store_collected _ _ _ Hs) in Hi.
  destruct Hs as [_ Ha]. rewrite Ha. by apply Hc.
Qed.

Lemma same_store_bad_decay s s' i :
  same_store s s' → bad_decay s' i ↔ bad_decay s i.
Proof. intros [Hp Ha]. unfold bad_decay. by rewrite Hp, Ha. Qed.

Lemma setup_params_complete idx s fs :
  Forall (λ f, is_Some (attrs s !! pname f idx)) fs →
  ∃ s', foldM (setup_param idx) s (prefix_str <$> fs) = Ok s' ∧
        same_store s s' ∧ glitch_indices s' = glitch_indices s.
Proof.
  revert s. induction fs as [|f fs IH]; intros s Hfs.
  - exists s. split; [done|]. split; [apply same_store_refl|done].
  - apply Forall_cons in Hfs as [Hf Hfs]. simpl.
    rewrite setup_param_present by exact Hf. simpl.
    destruct (IH (register_deriv_funcs s
                    ("d_phase_d_" +:+ but_last (prefix_str f))
                    (prefix_str f +:+ str idx)) Hfs) as (s' & E & Hs).
    exists s'. split; [done|]. exact Hs.
Qed.

Lemma setup_index_complete s i :
  is_Some (attrs s !! pname GLEP i) →
  Forall (λ f, is_Some (attrs s !! pname f i)) six →
  ∃ s', setup_index s i = Ok s' ∧
        same_store s s' ∧ glitch_indices s' = glitch_indices s.
Proof.
  intros He Hsix. unfold setup_index. fold_names.
  rewrite hasattr_true by done. rewrite glitch_prop_six.
  by apply setup_params_complete.
Qed.

Lemma setup_indices_complete s L :
  Forall (λ i, is_Some (attrs s !! pname GLEP i) ∧
               Forall (λ f, is_Some (attrs s !! pname f i)) six) L →
  ∃ s', foldM setup_index s L = Ok s' ∧
        same_store s s' ∧ glitch_indices s' = glitch_indices s.
Proof.
  revert s. induction L as [|i L IH]; intros s HL.
  - exists s. split; [done|]. split; [apply same_store_refl|done].
  - apply Forall_cons in HL as [[He Hsix] HL].
    destruct (setup_index_complete s i He Hsix) as (s1 & E1 & Hs1 & Hg1).
    destruct (IH s1) as (s2 & E2 & Hs2 & Hg2).
    { destruct Hs1 as [_ Ha]. by rewrite Ha. }
    exists s2. split; [cbn [foldM]; by rewrite E1|].
    split; [by eapply same_store_trans|congruence].
Qed.

Section SetupComplete.
Context `{SetOrder}.

(** On a store that is complete and has no decay amplitude without
    decay time, [setup] adds and changes no parameter. *)
Lemma setup_complete s :
  wf s → complete s → (∀ i, ¬ bad_decay s i) →
  ∃ s', setup s = Ok s' ∧ params s' = params s ∧ attrs s' = attrs s ∧
        (∀ i, i ∈ glitch_indices s' ↔ collected s i).
Proof.
  intros Hwf Hc Hnb. rewrite setup_unfold.
  destruct (collect_indices_spec s Hwf) as (idxs & -> & Hidxs). simpl.
  destruct (setup_indices_complete (with_indices s idxs) (set_iter idxs))
    as (s' & -> & Hs & Hg).
  { apply Forall_forall. intros i Hi. apply set_iter_elem, Hidxs in Hi.
    by apply Hc. }
  simpl.
  assert (same_store s s') as Hs' by exact Hs.
  destruct (decay_check_spec s') as [(i & Hb & _)|[_ ->]].
  { by eapply same_store_wf. }
  { by eapply same_store_complete. }
  { by apply (same_store_bad_decay _ _ _ Hs'), Hnb in Hb. }
  simpl. exists s'. destruct Hs as [Hp Ha]. simpl in *.
  split_and!; try done. intros i. by rewrite Hg.
Qed.


End SetupComplete.


(** Two stores on which [setup] raises: a frequency step for a second
    glitch that has no epoch, and a decay amplitude without decay time. *)
Example setup_without_epoch :
  @setup first_seen_order (add_param default_glitch (mkParam GLF0 2 1)) =
    Raise (MissingParameter "Glitch" "GLEP_2"
             "Glicth Epoch is needed for Glicth 2.").
Proof. vm_compute. reflexivity. Qed.

Example setup_without_decay_time :
  @setup first_seen_order
     (store_of [ mkParam GLPH 1 0; mkParam GLEP 1 55000; mkParam GLF0 1 0;
                 mkParam GLF1 1 0; mkParam GLF2 1 0; mkParam GLF0D 1 1;
                 mkParam GLTD 1 0 ]) =
    Raise (MissingParameter "Glitch" "GLTD_1"
             "None zero GLF0D_1 parameter needs a none zero GLTD_1 parameter").
Proof.
  vm_compute.
  destruct (Req_dec_T _ _) as [Hn|_]; [exfalso; lra|].
  destruct (Req_dec_T _ _) as [_|Hn]; [reflexivity|exfalso; apply Hn; reflexivity].
Qed.

(** ** A glitch of which only the epoch is given *)

Lemma glitch_phase_step_ext s s' tdbld delay phs nm :
  attrs s' = attrs s →
  glitch_phase_step s' tdbld delay phs nm = glitch_phase_step s tdbld delay phs nm.
Proof. intros Ha. unfold glitch_phase_step, getattr. by rewrite Ha. Qed.

Lemma glitch_phase_ext s s' tdbld delay :
  same_store s s' → glitch_phase s' tdbld delay = glitch_phase s tdbld delay.
Proof.
  intros [Hp Ha]. unfold glitch_phase, glepnames. rewrite Hp.
  generalize (zeros (length tdbld)).
  induction (filter _ _) as [|nm nms IH]; intros phs; [done|].
  cbn [foldM]. rewrite (glitch_phase_step_ext s s') by done.
  destruct (glitch_phase_step s tdbld delay phs nm); [apply IH|done].
Qed.

Lemma epoch_only_collected i : collected epoch_only_glitch i → i = 1.
Proof.
  intros (k & p & Hk & Hp & Hf & <-).
  change (params epoch_only_glitch)
    with ["GLPH_1"; "GLEP_1"; "GLF0_1"; "GLF1_1"; "GLF2_1"; "GLF0D_1";
          "GLTD_1"; "GLEP_3"] in Hk.
  repeat (apply elem_of_cons in Hk as [->|Hk];
            [vm_compute in Hp; injection Hp as <-; done|]).
  by apply elem_of_nil in Hk.
Qed.
(** ** Arrays *)

Lemma length_zeros n : length (zeros n) = n.
Proof. apply length_replicate. Qed.

Lemma lookup_zeros n i : i < n → zeros n !! i = Some 0%R.
Proof. intros. by apply lookup_replicate_2. Qed.

Lemma length_gt0 dt : length (gt0 dt) = length dt.
Proof. apply length_fmap. Qed.


(** Masked addition, entry by entry. *)
Lemma mask_iadd_gt0 (h : R → R) phs dt :
  length phs = length dt →
  mask_iadd phs (gt0 dt) (h <$> mask_get dt (gt0 dt)) =
  zip_with (λ x d, if bool_decide (0 < d)%R then (x + h d)%R else x) phs dt.
Proof.
  revert phs. induction dt as [|d dt IH]; intros [|x phs] Hl; try done.
  simpl in *. destruct (bool_decide (0 < d)%R); simpl; f_equal; apply IH; lia.
Qed.

(** The positions that [np.where] returns are those where the mask holds. *)
Lemma elem_of_where_from k mask i :
  i ∈ where_from k mask ↔ ∃ j, i = k + j ∧ mask !! j = Some true.
Proof.
  revert k. induction mask as [|b mask IH]; intros k; simpl.
  - split; [by intros ?%elem_of_nil|by intros (? & _ & ?)].
  - assert (i ∈ where_from (S k) mask ↔ ∃ j, i = k + S j ∧ mask !! j = Some true)
      as IH'.
    { rewrite IH. by setoid_rewrite Nat.add_succ_r. }
    destruct b.
    + rewrite elem_of_cons, IH'. split.
      * intros [->|(j & -> & Hj)]; [exists 0|exists (S j)]; split; (lia || done).
      * intros ([|j] & -> & Hj); [left; lia|right; by exists j].
    + rewrite IH'. split.
      * intros (j & -> & Hj). by exists (S j).
      * intros ([|j] & -> & Hj); [done|by exists j].
Qed.

Lemma elem_of_np_where mask i : i ∈ np_where mask ↔ mask !! i = Some true.
Proof.
  unfold np_where. rewrite elem_of_where_from. split.
  - by intros (j & -> & Hj).
  - intros Hi. by exists i.
Qed.

(** The boolean mask of the forward model and the positions of the
    derivatives single out the same entries. *)
Lemma affected_spec dt i :
  i ∈ np_where (gt0 dt) ↔ ∃ x, dt !! i = Some x ∧ (0 < x)%R.
Proof.
  rewrite elem_of_np_where. unfold gt0. rewrite list_lookup_fmap. split.
  - destruct (dt !! i) as [x|]; [|done]. simpl. intros [= Hx%bool_decide_eq_true_1].
    by exists x.
  - intros (x & -> & Hx). simpl. by rewrite bool_decide_eq_true_2.
Qed.

(** Assignment at positions, entry by entry, when the value written at a
    position depends on the position alone. *)
Lemma idx_set_lookup (h : nat → R) a idxs i :
  idx_set a idxs (h <$> idxs) !! i =
  if decide (i ∈ idxs ∧ i < length a) then Some (h i) else a !! i.
Proof.
  unfold idx_set. revert a. induction idxs as [|j idxs IH]; intros a.
  - rewrite decide_False; [done|]. intros [Hd _]. by apply elem_of_nil in Hd.
  - rewrite fmap_cons. cbn [zip_with foldl fst snd]. rewrite IH, length_insert.
    destruct (decide (i = j)) as [->|Hij].
    + destruct (decide (j < length a)) as [Hj|Hj].
      * rewrite list_lookup_insert_eq by done.
        rewrite (decide_True (P := j ∈ j :: idxs ∧ _)) by (split; [left|]; done).
        by destruct (decide _).
      * rewrite !decide_False by (intros [_ ?]; lia).
        by rewrite list_insert_ge by lia.
    + rewrite list_lookup_insert_ne by done.
      apply decide_ext. rewrite elem_of_cons.
      split; [intros [? ?]; auto|intros [[?|?] ?]; [done|auto]].
Qed.

Lemma length_idx_set a idxs v : length (idx_set a idxs v) = length a.
Proof.
  unfold idx_set. revert a v. induction idxs as [|j idxs IH]; intros a [|y v]; try done.
  simpl. by rewrite IH, length_insert.
Qed.

Lemma length_idx_iadd a idxs v : length (idx_iadd a idxs v) = length a.
Proof. apply length_idx_set. Qed.

Lemma idx_get_fmap a idxs : idx_get a idxs = (λ i, nth i a 0%R) <$> idxs.
Proof. done. Qed.

Lemma idx_iadd_fmap (g : nat → R) a idxs :
  idx_iadd a idxs (g <$> idxs) =
  idx_set a idxs ((λ i, nth i a 0 + g i)%R <$> idxs).
Proof.
  unfold idx_iadd, idx_get. f_equal.
  rewrite zip_with_fmap_l, zip_with_fmap_r, zip_with_diag. done.
Qed.

Lemma nth_lookup_R (a : list R) i x : a !! i = Some x → nth i a 0%R = x.
Proof. intros E. by apply nth_lookup_Some with (d := 0%R) in E. Qed.

(** A derivative array, entry by entry: [h] of the entry of [dt] where
    the glitch has taken place, and 0 elsewhere. *)
Lemma deriv_array_lookup (h : R → R) dt n i x :
  length dt = n → dt !! i = Some x →
  idx_iadd (zeros n) (np_where (gt0 dt))
    ((λ j, h (nth j dt 0%R)) <$> np_where (gt0 dt)) !! i =
  Some (if bool_decide (0 < x)%R then (0 + h x)%R else 0%R).
Proof.
  intros Hn Hi. rewrite idx_iadd_fmap, idx_set_lookup, length_zeros.
  pose proof (lookup_lt_Some _ _ _ Hi) as Hlt. rewrite Hn in Hlt.
  case_bool_decide as Hx.
  - rewrite decide_True.
    + rewrite (nth_lookup_R _ _ _ Hi).
      by rewrite (nth_lookup_R _ _ _ (lookup_zeros n i Hlt)).
    + split; [|done]. apply affected_spec. by exists x.
  - rewrite decide_False; [by apply lookup_zeros|].
    intros [(y & Hy & Hpos)%affected_spec _]. congruence.
Qed.

(** The array of [dt]. *)
Lemma dt_seconds_Ok tdbld eph delay :
  length tdbld = length delay →
  dt_seconds tdbld eph delay =
    Ok (zip_with (λ t d, (t - eph) * day - d)%R tdbld delay).
Proof. intros Hl. unfold dt_seconds. by rewrite decide_True. Qed.

Lemma dt_lookup tdbld eph delay i t d :
  tdbld !! i = Some t → delay !! i = Some d →
  zip_with (λ t d, (t - eph) * day - d)%R tdbld delay !! i =
    Some ((t - eph) * day - d)%R.
Proof. intros Ht Hd. by rewrite lookup_zip_with, Ht; simpl; rewrite Hd. Qed.

Lemma dt_length tdbld eph delay :
  length tdbld = length delay →
  length (zip_with (λ t d, (t - eph) * day - d)%R tdbld delay) = length tdbld.
Proof. intros Hl. rewrite length_zip_with. lia. Qed.

Lemma array_div_Ok a d :
  d ≠ 0%R → array_div a d = Ok ((λ x, x / d)%R <$> a).
Proof.
  intros Hd. unfold array_div. destruct a; [done|].
  by destruct (Req_dec_T d 0).
Qed.

Lemma array_div_nil d : array_div [] d = Ok [].
Proof. done. Qed.

Lemma array_div_zero a : a ≠ [] → array_div a 0 = Raise DivideByZero.
Proof.
  intros Ha. unfold array_div. destruct a; [done|].
  by destruct (Req_dec_T 0 0).
Qed.
(** ** The forward model *)

Lemma event_lookups s n ev :
  event s n = Some ev →
  ∃ glep glph glf0 glf1 glf2 glf0d gltd,
    attrs s !! pname GLEP n = Some glep ∧ attrs s !! pname GLPH n = Some glph ∧
    attrs s !! pname GLF0 n = Some glf0 ∧ attrs s !! pname GLF1 n = Some glf1 ∧
    attrs s !! pname GLF2 n = Some glf2 ∧ attrs s !! pname GLF0D n = Some glf0d ∧
    attrs s !! pname GLTD n = Some gltd ∧
    ev = mkEvent (par_value glep) (par_quantity glph) (par_quantity glf0)
           (par_quantity glf1) (par_quantity glf2) (par_quantity glf0d)
           (par_quantity gltd).
Proof.
  unfold event. intros E.
  destruct (attrs s !! pname GLEP n) as [glep|]; [|done].
  destruct (attrs s !! pname GLPH n) as [glph|]; [|done].
  destruct (attrs s !! pname GLF0 n) as [glf0|]; [|done].
  destruct (attrs s !! pname GLF1 n) as [glf1|]; [|done].
  destruct (attrs s !! pname GLF2 n) as [glf2|]; [|done].
  destruct (attrs s !! pname GLF0D n) as [glf0d|]; [|done].
  destruct (attrs s !! pname GLTD n) as [gltd|]; [|done].
  simpl in E. injection E as <-.
  by exists glep, glph, glf0, glf1, glf2, glf0d, gltd.
Qed.

Lemma par_quantity_lookup s f n p :
  wf s → attrs s !! pname f n = Some p →
  par_quantity p =
    match f with GLEP | GLTD => (par_value p * day)%R | _ => par_value p end.
Proof.
  intros Hwf Hp. destruct (wf_lookup _ _ _ _ Hwf Hp) as [Hf _].
  unfold par_quantity. by rewrite Hf.
Qed.

Lemma getattr_quantity s k p :
  attrs s !! k = Some p → par_quantity <$> getattr s k = Ok (par_quantity p).
Proof. intros Hp. by rewrite (getattr_Some _ _ _ Hp). Qed.

Lemma day_neq_0 : day ≠ 0%R.
Proof. unfold day. lra. Qed.

Lemma tau_neq_0 v : v ≠ 0%R → (v * day)%R ≠ 0%R.
Proof. intros Hv. apply Rmult_integral_contrapositive_currified; [done|apply day_neq_0]. Qed.

Lemma GLTD_value_quantity s n p :
  wf s → attrs s !! pname GLTD n = Some p →
  par_value p = 0%R ↔ par_quantity p = 0%R.
Proof.
  intros Hwf Hp. rewrite (par_quantity_lookup _ _ _ _ Hwf Hp). split.
  - intros ->. lra.
  - intros Hq. destruct (Req_dec_T (par_value p) 0) as [|Hv]; [done|].
    by apply tau_neq_0 in Hv.
Qed.

(** The loop body in closed form: every affected entry grows by the
    phase of the event, every other entry stays. *)
Lemma glitch_phase_step_eq s n ev tdbld delay phs :
  wf s → event s n = Some ev →
  length tdbld = length delay → length phs = length tdbld →
  (ev_GLF0D ev ≠ 0%R → ev_GLTD ev ≠ 0%R) →
  glitch_phase_step s tdbld delay phs (pname GLEP n) =
    Ok (zip_with (λ x dt, if bool_decide (0 < dt)%R
                          then (x + event_phase ev dt)%R else x)
          phs (zip_with (λ t d, (t - ev_GLEP ev) * day - d)%R tdbld delay)).
Proof.
  intros Hwf Hev Hl Hp Hdecay.
  destruct (event_lookups _ _ _ Hev)
    as (glep & glph & glf0 & glf1 & glf2 & glf0d & gltd &
        Hglep & Hglph & Hglf0 & Hglf1 & Hglf2 & Hglf0d & Hgltd & ->).
  simpl in *. unfold glitch_phase_step.
  rewrite (getattr_Some _ _ _ Hglep). simpl.
  destruct (wf_lookup _ _ _ _ Hwf Hglep) as [_ ->]. fold_names.
  rewrite (getattr_quantity _ _ _ Hglph). simpl.
  rewrite (getattr_quantity _ _ _ Hglf0). simpl.
  rewrite (getattr_quantity _ _ _ Hglf1). simpl.
  rewrite (getattr_quantity _ _ _ Hglf2). simpl.
  rewrite dt_seconds_Ok by done. simpl.
  rewrite (getattr_quantity _ _ _ Hglf0d). simpl.
  set (dt := zip_with _ tdbld delay).
  assert (length phs = length dt) as Hpd
    by (unfold dt; rewrite dt_length; done).
  unfold event_phase, decay_term. simpl.
  destruct (Req_dec_T (par_quantity glf0d) 0) as [Hz|Hnz]; simpl.
  - rewrite zip_with_fmap_l, zip_with_fmap_r, zip_with_diag.
    by rewrite (mask_iadd_gt0 _ phs dt Hpd).
  - rewrite (getattr_quantity _ _ _ Hgltd). simpl.
    rewrite array_div_Ok by auto. simpl.
    rewrite <- list_fmap_compose.
    rewrite zip_with_fmap_l, zip_with_fmap_r, zip_with_diag.
    by rewrite (mask_iadd_gt0 _ phs dt Hpd).
Qed.
(** ** The derivatives *)

Lemma deriv_args_Ok s f fn n glep par :
  attrs s !! pname GLEP n = Some glep → attrs s !! pname f n = Some par →
  deriv_args s (prefix_str f) fn (pname f n) = Ok (str n, n, par_value glep, par).
Proof.
  intros Hglep Hpar. unfold deriv_args.
  rewrite split_prefixed_name_pname. simpl.
  rewrite String.eqb_refl. simpl. fold_names.
  by rewrite (getattr_Some _ _ _ Hglep), (getattr_Some _ _ _ Hpar).
Qed.

Lemma deriv_args_mismatch s pfx fn param p ids idv :
  split_prefixed_name param = Ok (p, ids, idv) → p ≠ pfx →
  deriv_args s pfx fn param =
    Raise (ValueError ("Can not calculate " +:+ fn +:+ " with respect to "
                       +:+ param +:+ ".")).
Proof.
  intros Hsplit Hp. unfold deriv_args. rewrite Hsplit. simpl.
  apply String.eqb_neq in Hp. by rewrite Hp.
Qed.

Lemma deriv_iadd_spec (h : R → R) dt n :
  length dt = n →
  let arr := idx_iadd (zeros n) (np_where (gt0 dt))
               (h <$> idx_get dt (np_where (gt0 dt))) in
  length arr = n ∧ ∀ i x, dt !! i = Some x → arr !! i = Some (deriv_entry h x).
Proof.
  intros Hn arr. split.
  - unfold arr. by rewrite length_idx_iadd, length_zeros.
  - intros i x Hi. unfold arr, idx_get. rewrite <- list_fmap_compose.
    by apply (deriv_array_lookup h).
Qed.

Lemma deriv_set_spec dt n :
  length dt = n →
  let arr := idx_set (zeros n) (np_where (gt0 dt))
               (idx_get dt (np_where (gt0 dt))) in
  length arr = n ∧
  ∀ i x, dt !! i = Some x →
         arr !! i = Some (if bool_decide (0 < x)%R then x else 0%R).
Proof.
  intros Hn arr. split.
  - unfold arr. by rewrite length_idx_set, length_zeros.
  - intros i x Hi. unfold arr, idx_get.
    rewrite idx_set_lookup, length_zeros.
    pose proof (lookup_lt_Some _ _ _ Hi) as Hlt. rewrite Hn in Hlt.
    case_bool_decide as Hx.
    + rewrite decide_True; [by rewrite (nth_lookup_R _ _ _ Hi)|].
      split; [|done]. apply affected_spec. by exists x.
    + rewrite decide_False; [by apply lookup_zeros|].
      intros [(y & Hy & Hpos)%affected_spec _]. congruence.
Qed.

Section Derivatives.
Variables (s : Glitch) (n : nat) (ev : event_values).
Variables (tdbld delay : list R).
Hypothesis Hwf : wf s.
Hypothesis Hev : event s n = Some ev.
Hypothesis Hlen : length tdbld = length delay.

Let dt := zip_with (λ t d, (t - ev_GLEP ev) * day - d)%R tdbld delay.

Lemma d_phase_d_GLPH_eq :
  d_phase_d_GLPH s tdbld (pname GLPH n) delay =
    Ok (idx_iadd (zeros (length tdbld)) (np_where (gt0 dt))
          ((λ _ : R, 1%R) <$> idx_get dt (np_where (gt0 dt)))).
Proof.
  destruct (event_lookups _ _ _ Hev)
    as (glep & glph & glf0 & glf1 & glf2 & glf0d & gltd &
        Hglep & Hglph & Hglf0 & Hglf1 & Hglf2 & Hglf0d & Hgltd & E).
  unfold d_phase_d_GLPH.
  rewrite (deriv_args_Ok s GLPH _ n _ _ Hglep Hglph). simpl.
  rewrite dt_seconds_Ok by done. simpl.
  unfold idx_get. rewrite <- list_fmap_compose. subst ev. done.
Qed.

Lemma d_phase_d_GLF0_eq :
  d_phase_d_GLF0 s tdbld (pname GLF0 n) delay =
    Ok (idx_set (zeros (length tdbld)) (np_where (gt0 dt))
          (idx_get dt (np_where (gt0 dt)))).
Proof.
  destruct (event_lookups _ _ _ Hev)
    as (glep & glph & glf0 & glf1 & glf2 & glf0d & gltd &
        Hglep & Hglph & Hglf0 & Hglf1 & Hglf2 & Hglf0d & Hgltd & E).
  unfold d_phase_d_GLF0.
  rewrite (deriv_args_Ok s GLF0 _ n _ _ Hglep Hglf0). simpl.
  rewrite dt_seconds_Ok by done. simpl. subst ev. done.
Qed.

Lemma d_phase_d_GLF1_eq :
  d_phase_d_GLF1 s tdbld (pname GLF1 n) delay =
    Ok (idx_iadd (zeros (length tdbld)) (np_where (gt0 dt))
          ((λ x : R, 0.5 * x * x)%R <$> idx_get dt (np_where (gt0 dt)))).
Proof.
  destruct (event_lookups _ _ _ Hev)
    as (glep & glph & glf0 & glf1 & glf2 & glf0d & gltd &
        Hglep & Hglph & Hglf0 & Hglf1 & Hglf2 & Hglf0d & Hgltd & E).
  unfold d_phase_d_GLF1.
  rewrite (deriv_args_Ok s GLF1 _ n _ _ Hglep Hglf1). simpl.
  rewrite dt_seconds_Ok by done. simpl. subst ev. done.
Qed.

Lemma d_phase_d_GLF2_eq :
  d_phase_d_GLF2 s tdbld (pname GLF2 n) delay =
    Ok (idx_iadd (zeros (length tdbld)) (np_where (gt0 dt))
          ((λ x : R, 1 / 6 * x * x * x)%R <$> idx_get dt (np_where (gt0 dt)))).
Proof.
  destruct (event_lookups _ _ _ Hev)
    as (glep & glph & glf0 & glf1 & glf2 & glf0d & gltd &
        Hglep & Hglph & Hglf0 & Hglf1 & Hglf2 & Hglf0d & Hgltd & E).
  unfold d_phase_d_GLF2.
  rewrite (deriv_args_Ok s GLF2 _ n _ _ Hglep Hglf2). simpl.
  rewrite dt_seconds_Ok by done. simpl. subst ev. done.
Qed.

(** Up to the division, [d_phase_d_GLF0D] is this. *)
Lemma d_phase_d_GLF0D_unfold :
  d_phase_d_GLF0D s tdbld (pname GLF0D n) delay =
    (q ← array_div (Ropp <$> idx_get dt (np_where (gt0 dt))) (ev_GLTD ev);
     Ok (idx_iadd (zeros (length tdbld)) (np_where (gt0 dt))
           ((λ x : R, ev_GLTD ev * (1 - exp x))%R <$> (q : list R)))).
Proof.
  destruct (event_lookups _ _ _ Hev)
    as (glep & glph & glf0 & glf1 & glf2 & glf0d & gltd &
        Hglep & Hglph & Hglf0 & Hglf1 & Hglf2 & Hglf0d & Hgltd & E).
  unfold d_phase_d_GLF0D.
  rewrite (deriv_args_Ok s GLF0D _ n _ _ Hglep Hglf0d). simpl. fold_names.
  rewrite (getattr_quantity _ _ _ Hgltd). simpl.
  rewrite dt_seconds_Ok by done. simpl. subst ev. done.
Qed.

Lemma d_phase_d_GLF0D_eq :
  ev_GLTD ev ≠ 0%R →
  d_phase_d_GLF0D s tdbld (pname GLF0D n) delay =
    Ok (idx_iadd (zeros (length tdbld)) (np_where (gt0 dt))
          ((λ x : R, ev_GLTD ev * (1 - exp (- x / ev_GLTD ev)))%R
             <$> idx_get dt (np_where (gt0 dt)))).
Proof.
  intros Htau. rewrite d_phase_d_GLF0D_unfold.
  rewrite array_div_Ok by done. simpl.
  by rewrite <- !list_fmap_compose.
Qed.

Lemma d_phase_d_GLTD_zero :
  ev_GLTD ev = 0%R →
  d_phase_d_GLTD s tdbld (pname GLTD n) delay = Ok (zeros (length tdbld)).
Proof.
  intros Htau.
  destruct (event_lookups _ _ _ Hev)
    as (glep & glph & glf0 & glf1 & glf2 & glf0d & gltd &
        Hglep & Hglph & Hglf0 & Hglf1 & Hglf2 & Hglf0d & Hgltd & E).
  unfold d_phase_d_GLTD.
  rewrite (deriv_args_Ok s GLTD _ n _ _ Hglep Hgltd). simpl.
  subst ev. simpl in Htau.
  apply (GLTD_value_quantity _ _ _ Hwf Hgltd) in Htau.
  by destruct (Req_dec_T (par_value gltd) 0).
Qed.

Lemma d_phase_d_GLTD_eq :
  ev_GLTD ev ≠ 0%R →
  d_phase_d_GLTD s tdbld (pname GLTD n) delay =
    Ok (idx_iadd (zeros (length tdbld)) (np_where (gt0 dt))
          ((λ x : R,
              let tau := ev_GLTD ev in
              ev_GLF0D ev * (1 - exp (- x / tau)) +
              ev_GLF0D ev * tau * (- exp (- x / tau)) * x / (tau * tau))%R
             <$> idx_get dt (np_where (gt0 dt)))).
Proof.
  intros Htau.
  destruct (event_lookups _ _ _ Hev)
    as (glep & glph & glf0 & glf1 & glf2 & glf0d & gltd &
        Hglep & Hglph & Hglf0 & Hglf1 & Hglf2 & Hglf0d & Hgltd & E).
  unfold d_phase_d_GLTD.
  rewrite (deriv_args_Ok s GLTD _ n _ _ Hglep Hgltd). simpl.
  subst ev. simpl in *.
  destruct (Req_dec_T (par_value gltd) 0) as [Hv|_].
  { by apply (GLTD_value_quantity _ _ _ Hwf Hgltd) in Hv. }
  fold_names. rewrite (getattr_quantity _ _ _ Hglf0d). simpl.
  rewrite dt_seconds_Ok by done. simpl.
  rewrite array_div_Ok by done. simpl.
  rewrite <- !list_fmap_compose, zip_with_fmap_l, zip_with_diag.
  rewrite array_div_Ok
    by (by apply Rmult_integral_contrapositive_currified).
  simpl. rewrite <- !list_fmap_compose.
  rewrite zip_with_fmap_l, zip_with_fmap_r, zip_with_diag. done.
Qed.
End Derivatives.
(** ** The derivatives, entry by entry *)


Lemma np_where_nil_entry dt i x :
  np_where (gt0 dt) = [] → dt !! i = Some x → ¬ (0 < x)%R.
Proof.
  intros Hw Hi Hx.
  assert (i ∈ np_where (gt0 dt)) as Hin by (apply affected_spec; eauto).
  rewrite Hw in Hin. by apply elem_of_nil in Hin.
Qed.


Section Entries.
Variables (s : Glitch) (n : nat) (ev : event_values).
Variables (tdbld delay : list R) (i : nat) (t d : R).
Hypothesis Hwf : wf s.
Hypothesis Hev : event s n = Some ev.
Hypothesis Hlen : length tdbld = length delay.
Hypothesis Ht : tdbld !! i = Some t.
Hypothesis Hd : delay !! i = Some d.

Let dt := ((t - ev_GLEP ev) * day - d)%R.
Let dts := zip_with (λ t d, (t - ev_GLEP ev) * day - d)%R tdbld delay.

Lemma dts_lookup : dts !! i = Some dt.
Proof. by apply dt_lookup. Qed.

Lemma dts_length : length dts = length tdbld.
Proof. by apply dt_length. Qed.

(** The entry [i] of each derivative, for the decay families when the
    decay time is not 0. *)
Lemma d_phase_d_entry F :
  F ≠ GLEP → (F = GLF0D ∨ F = GLTD → ev_GLTD ev ≠ 0%R) →
  ∃ arr, d_phase_d F s tdbld (pname F n) delay = Ok arr ∧
         length arr = length tdbld ∧
         arr !! i =
           Some (deriv_entry
                   (match F with
                    | GLPH => λ _, 1
                    | GLF0 => λ x, x
                    | GLF1 => λ x, 0.5 * x * x
                    | GLF2 => λ x, 1 / 6 * x * x * x
                    | GLF0D => λ x, ev_GLTD ev * (1 - exp (- x / ev_GLTD ev))
                    | GLTD => λ x,
                        ev_GLF0D ev * (1 - exp (- x / ev_GLTD ev)) +
                        ev_GLF0D ev * ev_GLTD ev
                        * (- exp (- x / ev_GLTD ev)) * x
                        / (ev_GLTD ev * ev_GLTD ev)
                    | GLEP => λ _, 0
                    end)%R dt).
Proof.
  intros HF Htau. pose proof dts_lookup as Hi. pose proof dts_length as Hn.
  destruct F; [|done|..]; simpl.
  - rewrite (d_phase_d_GLPH_eq s n ev tdbld delay Hev Hlen).
    eexists. split; [done|].
    destruct (deriv_iadd_spec (λ _, 1%R) dts _ Hn) as [HL HE].
    split; [exact HL|]. by apply HE.
  - rewrite (d_phase_d_GLF0_eq s n ev tdbld delay Hev Hlen).
    eexists. split; [done|].
    destruct (deriv_set_spec dts _ Hn) as [HL HE].
    split; [exact HL|]. etrans; [exact (HE _ _ Hi)|]. unfold deriv_entry.
    case_bool_decide; f_equal; lra.
  - rewrite (d_phase_d_GLF1_eq s n ev tdbld delay Hev Hlen).
    eexists. split; [done|].
    destruct (deriv_iadd_spec (λ x, 0.5 * x * x)%R dts _ Hn) as [HL HE].
    split; [exact HL|]. by apply HE.
  - rewrite (d_phase_d_GLF2_eq s n ev tdbld delay Hev Hlen).
    eexists. split; [done|].
    destruct (deriv_iadd_spec (λ x, 1 / 6 * x * x * x)%R dts _ Hn)
      as [HL HE].
    split; [exact HL|]. by apply HE.
  - rewrite (d_phase_d_GLF0D_eq s n ev tdbld delay Hev Hlen) by auto.
    eexists. split; [done|].
    destruct (deriv_iadd_spec
                (λ x, ev_GLTD ev * (1 - exp (- x / ev_GLTD ev)))%R dts _ Hn)
      as [HL HE].
    split; [exact HL|]. by apply HE.
  - rewrite (d_phase_d_GLTD_eq s n ev tdbld delay Hwf Hev Hlen) by auto.
    eexists. split; [done|].
    destruct (deriv_iadd_spec
                (λ x, ev_GLF0D ev * (1 - exp (- x / ev_GLTD ev)) +
                      ev_GLF0D ev * ev_GLTD ev
                      * (- exp (- x / ev_GLTD ev)) * x
                      / (ev_GLTD ev * ev_GLTD ev))%R dts _ Hn)
      as [HL HE].
    split; [exact HL|]. by apply HE.
Qed.
End Entries.
(** ** The phase of an event as a function of one of its quantities *)

Section Analysis.
Local Open Scope R_scope.




End Analysis.
(** ** The phase as a sum over the glitches *)

Lemma length_mask_iadd a m v : length (mask_iadd a m v) = length a.
Proof.
  revert m v. induction a as [|x a IH]; intros [|[] m] v; try done.
  - destruct v; [done|]. simpl. by rewrite IH.
  - simpl. by rewrite IH.
Qed.

(** Adding into an array is adding what would be added into zeros. *)
Lemma zip_with_plus_zeros (a : list R) :
  zip_with Rplus a (replicate (length a) 0%R) = a.
Proof.
  induction a as [|x a IH]; [done|]. simpl. rewrite IH. f_equal. lra.
Qed.

Lemma mask_iadd_zeros a m v :
  mask_iadd a m v = zip_with Rplus a (mask_iadd (zeros (length a)) m v).
Proof.
  unfold zeros. revert m v.
  induction a as [|x a IH]; intros m v; [by destruct m|].
  destruct m as [|[] m]; simpl.
  - rewrite zip_with_plus_zeros. f_equal. lra.
  - destruct v as [|y v]; simpl.
    + rewrite zip_with_plus_zeros. f_equal. lra.
    + rewrite <- IH. f_equal. lra.
  - rewrite <- IH. f_equal. lra.
Qed.

(** One pass of the loop adds the contribution that the glitch has when
    computed alone. *)
Lemma glitch_phase_step_contribution s tdbld delay phs nm :
  length phs = length tdbld →
  glitch_phase_step s tdbld delay phs nm =
    (inc ← contribution s tdbld delay nm; Ok (zip_with Rplus phs inc)).
Proof.
  intros Hl. unfold contribution, glitch_phase_step.
  repeat match goal with
  | |- context [getattr s ?k] => destruct (getattr s k); simpl; [|done]
  | |- context [dt_seconds ?a ?b ?c] => destruct (dt_seconds a b c); simpl; [|done]
  | |- context [Req_dec_T ?x ?y] => destruct (Req_dec_T x y); simpl
  | |- context [array_div ?x ?y] => destruct (array_div x y); simpl; [|done]
  end;
  by rewrite mask_iadd_zeros, Hl.
Qed.

Lemma contribution_length s tdbld delay nm inc :
  contribution s tdbld delay nm = Ok inc → length inc = length tdbld.
Proof.
  unfold contribution, glitch_phase_step.
  repeat match goal with
  | |- context [getattr s ?k] => destruct (getattr s k); simpl; [|done]
  | |- context [dt_seconds ?a ?b ?c] => destruct (dt_seconds a b c); simpl; [|done]
  | |- context [Req_dec_T ?x ?y] => destruct (Req_dec_T x y); simpl
  | |- context [array_div ?x ?y] => destruct (array_div x y); simpl; [|done]
  end;
  intros [= <-]; by rewrite length_mask_iadd, length_zeros.
Qed.

Lemma glitch_phase_fold s tdbld delay acc nms :
  length acc = length tdbld →
  foldM (glitch_phase_step s tdbld delay) acc nms =
    (incs ← forM (contribution s tdbld delay) nms;
     Ok (foldl (zip_with Rplus) acc incs)).
Proof.
  revert acc. induction nms as [|nm nms IH]; intros acc Hl; [done|].
  cbn [foldM forM]. rewrite glitch_phase_step_contribution by done.
  destruct (contribution s tdbld delay nm) as [inc|e] eqn:E; [|done]. simpl.
  rewrite IH.
  - by destruct (forM (contribution s tdbld delay) nms).
  - rewrite length_zip_with, (contribution_length _ _ _ _ _ E). lia.
Qed.

Lemma glitch_phase_sum s tdbld delay :
  glitch_phase s tdbld delay =
    (incs ← forM (contribution s tdbld delay) (glepnames s);
     Ok (sum_arrays (length tdbld) incs)).
Proof. apply glitch_phase_fold, length_zeros. Qed.
(** ** The order of the glitches *)

Lemma zip_with_plus_swap (a x y : list R) :
  zip_with Rplus (zip_with Rplus a x) y = zip_with Rplus (zip_with Rplus a y) x.
Proof.
  revert x y. induction a as [|u a IH]; intros [|v x] [|w y]; try done.
  simpl. rewrite IH. f_equal. lra.
Qed.

Lemma foldl_plus_Permutation (acc : list R) incs incs' :
  incs ≡ₚ incs' →
  foldl (zip_with Rplus) acc incs = foldl (zip_with Rplus) acc incs'.
Proof.
  intros HP. revert acc.
  induction HP as [|x l l' _ IH|x y l|l1 l2 l3 _ IH1 _ IH2]; intros acc.
  - done.
  - simpl. apply IH.
  - simpl. by rewrite zip_with_plus_swap.
  - by rewrite IH1.
Qed.

Lemma forM_Permutation {A B} (f : A → result B) xs xs' ys :
  xs ≡ₚ xs' → forM f xs = Ok ys → ∃ ys', forM f xs' = Ok ys' ∧ ys ≡ₚ ys'.
Proof.
  intros HP. revert ys.
  induction HP as [|x l l' _ IH|x y l|l1 l2 l3 _ IH1 _ IH2]; intros ys.
  - intros [= <-]. by exists [].
  - cbn [forM]. destruct (f x) as [z|]; [|done]. simpl.
    destruct (forM f l) as [zs|] eqn:E; [|done]. simpl. intros [= <-].
    destruct (IH zs eq_refl) as (zs' & -> & HP'). simpl.
    exists (z :: zs'). split; [done|]. by constructor.
  - cbn [forM]. destruct (f y) as [u|]; [|done]. simpl.
    destruct (f x) as [v|]; [|done]. simpl.
    destruct (forM f l) as [zs|]; [|done]. simpl. intros [= <-].
    exists (v :: u :: zs). split; [done|]. apply perm_swap.
  - intros E. destruct (IH1 ys E) as (ys2 & E2 & HP2).
    destruct (IH2 ys2 E2) as (ys3 & E3 & HP3).
    exists ys3. split; [done|]. by etrans.
Qed.

Lemma forM_ext {A B} (f g : A → result B) xs :
  (∀ x, f x = g x) → forM f xs = forM g xs.
Proof.
  intros Hfg. induction xs as [|x xs IH]; [done|].
  cbn [forM]. by rewrite Hfg, IH.
Qed.

Lemma contribution_ext s s' tdbld delay nm :
  attrs s' = attrs s →
  contribution s' tdbld delay nm = contribution s tdbld delay nm.
Proof. intros Ha. by apply glitch_phase_step_ext. Qed.

(** The result does not depend on the order in which the parameters, and
    so the epochs, are listed. *)
Lemma glitch_phase_order s s' tdbld delay phs :
  attrs s' = attrs s → params s' ≡ₚ params s →
  glitch_phase s tdbld delay = Ok phs → glitch_phase s' tdbld delay = Ok phs.
Proof.
  intros Ha HP. rewrite !glitch_phase_sum.
  destruct (forM (contribution s tdbld delay) (glepnames s)) as [incs|] eqn:E;
    [|done].
  simpl. intros [= <-].
  assert (glepnames s ≡ₚ glepnames s') as HP'.
  { unfold glepnames. by rewrite HP. }
  destruct (forM_Permutation _ _ _ _ HP' E) as (incs' & E' & HPi).
  assert (forM (contribution s' tdbld delay) (glepnames s') = Ok incs') as ->.
  { rewrite <- E'. apply forM_ext. intros nm. by apply contribution_ext. }
  simpl. f_equal. unfold sum_arrays. symmetry. by apply foldl_plus_Permutation.
Qed.
(** ** The forward model, entry by entry *)

Lemma step_lookup (ev : event_values) phs dts i x dt :
  phs !! i = Some x → dts !! i = Some dt →
  zip_with (λ x dt, if bool_decide (0 < dt)%R
                    then (x + event_phase ev dt)%R else x) phs dts !! i =
  Some (if bool_decide (0 < dt)%R then (x + event_phase ev dt)%R else x).
Proof. intros Hx Hdt. by rewrite lookup_zip_with, Hx; simpl; rewrite Hdt. Qed.

Lemma glitch_phase_step_entry s n ev tdbld delay phs i t d x :
  wf s → event s n = Some ev → valid_event ev →
  length tdbld = length delay → length phs = length tdbld →
  tdbld !! i = Some t → delay !! i = Some d → phs !! i = Some x →
  ∃ phs', glitch_phase_step s tdbld delay phs (pname GLEP n) = Ok phs' ∧
          length phs' = length phs ∧
          phs' !! i =
            Some (let dt := ((t - ev_GLEP ev) * day - d)%R in
                  if bool_decide (0 < dt)%R then (x + event_phase ev dt)%R
                  else x).
Proof.
  intros Hwf Hev Hv Hl Hp Ht Hd Hx. eexists.
  split; [by apply glitch_phase_step_eq|]. split.
  - rewrite length_zip_with, dt_length by done. lia.
  - apply step_lookup; [done|]. by apply dt_lookup.
Qed.





(** C7.  When the value of [GLTD_n] is exactly 0, [d_phase_d_GLTD] returns
    the array of [N] zeros for every table of [N] timestamps and every
    delay, whatever the decay amplitude (it is not even read), and no
    division takes place. *)
Theorem d_phase_d_GLTD_zero_tau s n glep gltd tdbld delay :
  attrs s !! pname GLEP n = Some glep →
  attrs s !! pname GLTD n = Some gltd →
  par_value gltd = 0%R →
  d_phase_d_GLTD s tdbld (pname GLTD n) delay = Ok (zeros (length tdbld)) ∧
  length (zeros (length tdbld)) = length tdbld ∧
  ∀ i, i < length tdbld → zeros (length tdbld) !! i = Some 0%R.
Proof.
  intros Hglep Hgltd Hz. split_and!.
  - unfold d_phase_d_GLTD.
    rewrite (deriv_args_Ok s GLTD _ n _ _ Hglep Hgltd). simpl.
    by destruct (Req_dec_T (par_value gltd) 0).
  - apply length_zeros.
  - intros i. apply lookup_zeros.
Qed.

(** The same glitch as [one_glitch], its decay time set to 0 after the
    validation: the decay amplitude is 1. *)
Lemma d_phase_d_GLTD_zero_tau_witness :
  ∃ s, set_value one_glitch "GLTD_1" 0 = Ok s ∧
       event s 1 = Some (mkEvent 55000 0 1 0 0 1 (0 * day)) ∧
       d_phase_d_GLTD s [55001%R; 55002%R] (pname GLTD 1) [0%R; 0%R]
         = Ok (zeros 2) ∧
       length (zeros 2) = 2 ∧
       ∀ i, i < 2 → zeros 2 !! i = Some 0%R.
Proof.
  eexists. split; [reflexivity|]. split; [reflexivity|].
  apply (d_phase_d_GLTD_zero_tau _ 1 (mkParam GLEP 1 55000) (mkParam GLTD 1 0)
           [55001%R; 55002%R] [0%R; 0%R]); reflexivity.
Defined.

(** C8.  Each of the six derivatives, given a name whose prefix is not
    the one it answers for, raises [ValueError] and returns no array. *)
Theorem wrong_prefix_raises_ValueError s tdbld delay param p ids idv :
  split_prefixed_name param = Ok (p, ids, idv) →
  ∀ F, F ≠ GLEP → p ≠ prefix_str F →
    ∃ msg, d_phase_d F s tdbld param delay = Raise (ValueError msg) ∧
           ∀ arr, d_phase_d F s tdbld param delay ≠ Ok arr.
Proof.
  intros Hsplit F HF Hp.
  assert (∀ fn, deriv_args s (prefix_str F) fn param =
            Raise (ValueError ("Can not calculate " +:+ fn +:+
                               " with respect to " +:+ param +:+ ".")))
    as Hargs by (intros fn; by eapply deriv_args_mismatch).
  destruct F; [|done|..]; simpl in *; eexists;
    (split; [|intros arr]);
    unfold d_phase_d_GLPH, d_phase_d_GLF0, d_phase_d_GLF1, d_phase_d_GLF2,
      d_phase_d_GLF0D, d_phase_d_GLTD; by rewrite Hargs.
Qed.

Lemma wrong_prefix_raises_ValueError_witness :
  ∃ msg, d_phase_d GLPH one_glitch [55001%R] "GLF0_2" [0%R]
           = Raise (ValueError msg) ∧
         ∀ arr, d_phase_d GLPH one_glitch [55001%R] "GLF0_2" [0%R] ≠ Ok arr.
Proof.
  apply (wrong_prefix_raises_ValueError one_glitch [55001%R] [0%R]
           "GLF0_2" "GLF0_" "2" 2 eq_refl GLPH).
  - intros [=].
  - intros [=].
Defined.

(** The example of the claim: [d_phase_d_GLPH] asked for ['GLF0_2']. *)
Example d_phase_d_GLPH_of_GLF0_2 :
  d_phase_d_GLPH one_glitch [55001%R] "GLF0_2" [0%R] =
    Raise (ValueError
             "Can not calculate d_phase_d_GLPH with respect to GLF0_2.").
Proof. reflexivity. Qed.
(** The part of C3 that holds: the indices that [setup] stores are those
    of the six families, and at each of them a parameter that was absent is
    there afterwards with the value 0, while every parameter that was
    present is kept. *)
Lemma setup_fills_defaults `{SetOrder} s s' :
  wf s → templates s → setup s = Ok s' →
  (∀ i, i ∈ glitch_indices s' ↔ collected s i) ∧
  (∀ i f, collected s i → f ≠ GLEP →
     attrs s' !! pname f i =
       match attrs s !! pname f i with
       | Some p => Some p
       | None => Some (mkParam f i 0)
       end) ∧
  (∀ k p, attrs s !! k = Some p → attrs s' !! k = Some p).
Proof.
  intros Hwf Ht E.
  destruct (setup_spec s Hwf Ht)
    as [(i & _ & E')|[(_ & i & _ & E')|(_ & _ & s1 & E' & Hidx & X & Hwf' & Hc')]];
    [congruence..|].
  assert (s1 = s') as -> by congruence.
  split; [done|].
  pose proof X as (_ & H1 & H2 & _). simpl in H1, H2.
  split; [|done]. intros i f Hi Hf.
  destruct (attrs s !! pname f i) as [p|] eqn:Hp; [by apply H1|].
  destruct (Hc' i) as [_ Hsix].
  { by apply (extends_collected_mono _ _ _ _ X). }
  rewrite Forall_forall in Hsix.
  destruct (Hsix f) as [q Hq]; [by apply six_spec|].
  rewrite Hq. f_equal.
  destruct (H2 _ _ Hq) as [?|(_ & f' & i' & _ & _ & Hn & ->)]; [congruence|].
  by apply pname_inj in Hn as [<- <-].
Qed.

(** C3 at [epoch_only_glitch], whose par file gives [GLEP_3] and no
    other parameter of the third glitch: [setup] succeeds, but 3 is not
    among the indices it stores, none of the six parameters of index 3 is
    made, and [glitch_phase], which visits every epoch, fails on ["GLPH_3"]. *)
Theorem setup_skips_epoch_only_glitch `{SetOrder} :
  ∃ s', setup epoch_only_glitch = Ok s' ∧
        attrs s' !! "GLEP_3" = Some (mkParam GLEP 3 56000) ∧
        (3 ∉ glitch_indices s') ∧
        (∀ f, f ≠ GLEP → attrs s' !! pname f 3 = None) ∧
        glitch_phase s' [56001%R] [0%R] = Raise (AttributeError "GLPH_3").
Proof.
  assert (wf epoch_only_glitch) as Hwf.
  { apply (bool_decide_unpack _). vm_compute. exact I. }
  destruct (setup_complete epoch_only_glitch Hwf) as (s' & E & Hp & Ha & Hidx).
  { intros i ->%epoch_only_collected. split.
    - by eexists.
    - repeat constructor; by eexists. }
  { intros i (k & p & Hk & Hkp & Hf & _ & Hv & _).
    change (params epoch_only_glitch)
      with ["GLPH_1"; "GLEP_1"; "GLF0_1"; "GLF1_1"; "GLF2_1"; "GLF0D_1";
            "GLTD_1"; "GLEP_3"] in Hk.
    repeat (apply elem_of_cons in Hk as [->|Hk];
              [vm_compute in Hkp; injection Hkp as <-; simpl in *; done|]).
    by apply elem_of_nil in Hk. }
  exists s'. split; [done|]. rewrite Ha. split; [reflexivity|].
  split; [intros Hin; by apply Hidx, epoch_only_collected in Hin|].
  split; [intros f Hf; by destruct f|].
  rewrite (glitch_phase_ext epoch_only_glitch s') by (by split).
  unfold glitch_phase.
  change (glepnames epoch_only_glitch) with [pname GLEP 1; "GLEP_3"].
  cbn [foldM].
  assert (ev_GLF0D (mkEvent 55000 0 0 0 0 0 (0 * day)) ≠ 0%R →
          ev_GLTD (mkEvent 55000 0 0 0 0 0 (0 * day)) ≠ 0%R) as Hvalid
    by (by intros []).
  rewrite (glitch_phase_step_eq epoch_only_glitch 1
             (mkEvent 55000 0 0 0 0 0 (0 * day)) [56001%R] [0%R]
             (zeros (length [56001%R])) Hwf eq_refl eq_refl eq_refl Hvalid).
  reflexivity.
Qed.

(** ** Division by zero *)

(** With a decay time of 0 and a timestamp after the glitch,
    [d_phase_d_GLF0D] divides by zero. *)
Lemma d_phase_d_GLF0D_zero_tau s n ev tdbld delay i t d :
  event s n = Some ev → ev_GLTD ev = 0%R →
  length tdbld = length delay →
  tdbld !! i = Some t → delay !! i = Some d →
  (0 < (t - ev_GLEP ev) * day - d)%R →
  d_phase_d_GLF0D s tdbld (pname GLF0D n) delay = Raise DivideByZero.
Proof.
  intros Hev Hz Hl Ht Hd Hdt.
  rewrite (d_phase_d_GLF0D_unfold s n ev tdbld delay Hev Hl), Hz.
  set (dts := zip_with _ tdbld delay).
  assert (i ∈ np_where (gt0 dts)) as Hi.
  { apply affected_spec. eexists. split; [by apply dt_lookup|done]. }
  rewrite array_div_zero; [done|].
  destruct (np_where (gt0 dts)); [by apply elem_of_nil in Hi|done].
Qed.

(** Every other numeric path is defined on an event that satisfies the
    invariant: the loop body of [glitch_phase] and the five other
    derivatives return arrays, whatever the decay time. *)
Lemma other_paths_defined s n ev tdbld delay :
  wf s → event s n = Some ev → valid_event ev →
  length tdbld = length delay →
  (∀ phs, length phs = length tdbld →
     ∃ phs', glitch_phase_step s tdbld delay phs (pname GLEP n) = Ok phs') ∧
  (∀ F, F ≠ GLEP → F ≠ GLF0D →
     ∃ arr, d_phase_d F s tdbld (pname F n) delay = Ok arr) ∧
  (ev_GLTD ev ≠ 0%R →
   ∃ arr, d_phase_d_GLF0D s tdbld (pname GLF0D n) delay = Ok arr).
Proof.
  intros Hwf Hev Hv Hl. split_and!.
  - intros phs Hp. eexists. by apply glitch_phase_step_eq.
  - intros F HF1 HF2. destruct F; try done; simpl.
    + eexists. by apply (d_phase_d_GLPH_eq s n ev).
    + eexists. by apply (d_phase_d_GLF0_eq s n ev).
    + eexists. by apply (d_phase_d_GLF1_eq s n ev).
    + eexists. by apply (d_phase_d_GLF2_eq s n ev).
    + destruct (Req_dec_T (ev_GLTD ev) 0) as [Hz|Hnz]; eexists.
      * by apply (d_phase_d_GLTD_zero s n ev).
      * by apply (d_phase_d_GLTD_eq s n ev).
  - intros Hnz. eexists. by apply (d_phase_d_GLF0D_eq s n ev).
Qed.

(** C5 at the store as [__init__] and a par file with nothing but the
    epoch leave it: it passes [setup] with a decay amplitude of 0 and a decay
    time of 0, and [d_phase_d_GLF0D], asked about a timestamp one day after
    the glitch, divides by the decay time. *)
Theorem d_phase_d_GLF0D_divides_by_zero :
  @setup first_seen_order default_glitch = Ok default_after_setup ∧
  event default_after_setup 1 = Some (mkEvent 55000 0 0 0 0 0 (0 * day)) ∧
  d_phase_d_GLF0D default_after_setup [55001%R] "GLF0D_1" [0%R]
    = Raise DivideByZero.
Proof.
  split_and!.
  - vm_compute.
    match goal with
    | |- context [Req_dec_T ?x ?y] => destruct (Req_dec_T x y) as [_|Hn]
    end; [reflexivity|exfalso; apply Hn; reflexivity].
  - reflexivity.
  - apply (d_phase_d_GLF0D_zero_tau default_after_setup 1
             (mkEvent 55000 0 0 0 0 0 (0 * day)) [55001%R] [0%R] 0 55001%R 0%R);
      try reflexivity.
    + simpl. lra.
    + simpl. unfold day. lra.
Qed.
(** ** Two glitches *)

Lemma event_phase_absent ev dt : event_phase (absent ev) dt = 0%R.
Proof.
  unfold event_phase, poly_term, decay_term, absent. simpl.
  destruct (Req_dec_T 0 0); [ring|done].
Qed.

Lemma absent_valid ev : valid_event (absent ev).
Proof. by intros []. Qed.

(** The phase of a store with the two glitches [a] and [b], entry by
    entry. *)
Lemma glitch_phase_two s a b eva evb tdbld delay i t d :
  wf s → glepnames s = [pname GLEP a; pname GLEP b] →
  event s a = Some eva → event s b = Some evb →
  valid_event eva → valid_event evb →
  length tdbld = length delay →
  tdbld !! i = Some t → delay !! i = Some d →
  ∃ phs, glitch_phase s tdbld delay = Ok phs ∧
         phs !! i =
           Some (let dta := ((t - ev_GLEP eva) * day - d)%R in
                 let dtb := ((t - ev_GLEP evb) * day - d)%R in
                 let x := if bool_decide (0 < dta)%R
                          then (0 + event_phase eva dta)%R else 0%R in
                 if bool_decide (0 < dtb)%R
                 then (x + event_phase evb dtb)%R else x).
Proof.
  intros Hwf Hn Heva Hevb Hva Hvb Hl Ht Hd.
  unfold glitch_phase. rewrite Hn. cbn [foldM].
  rewrite (glitch_phase_step_eq s a eva) by (done || by rewrite length_zeros).
  simpl.
  rewrite (glitch_phase_step_eq s b evb); try done.
  - eexists. split; [done|].
    apply step_lookup; [|by apply dt_lookup].
    apply step_lookup; [|by apply dt_lookup].
    apply lookup_zeros. by eapply lookup_lt_Some.
  - rewrite length_zip_with, length_zeros, dt_length by done. lia.
Qed.

Lemma contribution_entry s n ev tdbld delay i t d :
  wf s → event s n = Some ev → valid_event ev →
  length tdbld = length delay →
  tdbld !! i = Some t → delay !! i = Some d →
  ∃ c, contribution s tdbld delay (pname GLEP n) = Ok c ∧
       c !! i =
         Some (let dt := ((t - ev_GLEP ev) * day - d)%R in
               if bool_decide (0 < dt)%R then (0 + event_phase ev dt)%R
               else 0%R).
Proof.
  intros Hwf Hev Hv Hl Ht Hd. unfold contribution.
  destruct (glitch_phase_step_entry s n ev tdbld delay (zeros (length tdbld))
              i t d 0%R Hwf Hev Hv Hl) as (c & E & _ & Hi);
    [apply length_zeros|done|done| |by exists c].
  apply lookup_zeros. by eapply lookup_lt_Some.
Qed.

(** C10.  The phase that [glitch_phase] returns is the entry-by-entry sum
    of the contributions of the glitches, each computed alone on an array
    of zeros; it is the same whatever the order in which the parameters are
    listed; and with two glitches [a] and [b], the phase at every timestamp
    is the sum of the phase of the store in which the quantities of [b] are
    0 and of the phase of the store in which those of [a] are 0, which are
    the contributions of [a] and of [b]. *)
Theorem glitch_phase_additive s tdbld delay :
  glitch_phase s tdbld delay =
    (incs ← forM (contribution s tdbld delay) (glepnames s);
     Ok (sum_arrays (length tdbld) incs)) ∧
  (∀ s' phs,
     attrs s' = attrs s → params s' ≡ₚ params s →
     glitch_phase s tdbld delay = Ok phs →
     glitch_phase s' tdbld delay = Ok phs) ∧
  (∀ a b eva evb sa sb,
     wf s → wf sa → wf sb →
     glepnames s = [pname GLEP a; pname GLEP b] →
     glepnames sa = [pname GLEP a; pname GLEP b] →
     glepnames sb = [pname GLEP a; pname GLEP b] →
     event s a = Some eva → event s b = Some evb →
     event sa a = Some eva → event sa b = Some (absent evb) →
     event sb a = Some (absent eva) → event sb b = Some evb →
     valid_event eva → valid_event evb →
     length tdbld = length delay →
     ∀ i t d, tdbld !! i = Some t → delay !! i = Some d →
       ∃ phs pa pb ca cb x y,
         glitch_phase s tdbld delay = Ok phs ∧
         glitch_phase sa tdbld delay = Ok pa ∧
         glitch_phase sb tdbld delay = Ok pb ∧
         contribution s tdbld delay (pname GLEP a) = Ok ca ∧
         contribution s tdbld delay (pname GLEP b) = Ok cb ∧
         pa !! i = Some x ∧ ca !! i = Some x ∧
         pb !! i = Some y ∧ cb !! i = Some y ∧
         phs !! i = Some (x + y)%R).
Proof.
  split_and!.
  - apply glitch_phase_sum.
  - intros s' phs. apply glitch_phase_order.
  - intros a b eva evb sa sb Hwf Hwfa Hwfb Hn Hna Hnb Heva Hevb Haa Hab Hba Hbb
      Hva Hvb Hl i t d Ht Hd.
    destruct (glitch_phase_two s a b eva evb tdbld delay i t d)
      as (phs & E & Hi); try done.
    destruct (glitch_phase_two sa a b eva (absent evb) tdbld delay i t d)
      as (pa & Ea & Hia); try done; [apply absent_valid|].
    destruct (glitch_phase_two sb a b (absent eva) evb tdbld delay i t d)
      as (pb & Eb & Hib); try done; [apply absent_valid|].
    destruct (contribution_entry s a eva tdbld delay i t d)
      as (ca & Eca & Hca); try done.
    destruct (contribution_entry s b evb tdbld delay i t d)
      as (cb & Ecb & Hcb); try done.
    exists phs, pa, pb, ca, cb. eexists. eexists.
    split; [done|]. split; [done|]. split; [done|]. split; [done|].
    split; [done|]. split; [|split; [exact Hca|split; [|split; [exact Hcb|]]]].
    + rewrite Hia. f_equal. simpl. rewrite event_phase_absent.
      repeat case_bool_decide; lra.
    + rewrite Hib. f_equal. simpl. rewrite event_phase_absent.
      repeat case_bool_decide; lra.
    + rewrite Hi. f_equal. simpl.
      repeat case_bool_decide; lra.
Qed.

Lemma glitch_phase_additive_witness :
  ∃ phs pa pb ca cb x y,
    glitch_phase two_glitches [55020%R] [0%R] = Ok phs ∧
    glitch_phase first_glitch_alone [55020%R] [0%R] = Ok pa ∧
    glitch_phase second_glitch_alone [55020%R] [0%R] = Ok pb ∧
    contribution two_glitches [55020%R] [0%R] (pname GLEP 1) = Ok ca ∧
    contribution two_glitches [55020%R] [0%R] (pname GLEP 5) = Ok cb ∧
    pa !! 0 = Some x ∧ ca !! 0 = Some x ∧
    pb !! 0 = Some y ∧ cb !! 0 = Some y ∧
    phs !! 0 = Some (x + y)%R.
Proof.
  apply (proj2 (proj2 (glitch_phase_additive two_glitches [55020%R] [0%R]))
           1 5 (mkEvent 55000 0 1 0 0 1 (1 * day))
           (mkEvent 55010 0 2 0 0 0 (0 * day))
           first_glitch_alone second_glitch_alone)
    with (t := 55020%R) (d := 0%R).
  - apply (bool_decide_unpack _). vm_compute. exact I.
  - apply (bool_decide_unpack _). vm_compute. exact I.
  - apply (bool_decide_unpack _). vm_compute. exact I.
  - reflexivity.
  - reflexivity.
  - reflexivity.
  - reflexivity.
  - reflexivity.
  - reflexivity.
  - change (event first_glitch_alone 5)
      with (Some (mkEvent 55010 0 0 0 0 0 (0 * day))).
    unfold absent. simpl. do 2 f_equal. lra.
  - change (event second_glitch_alone 1)
      with (Some (mkEvent 55000 0 0 0 0 0 (0 * day))).
    unfold absent. simpl. do 2 f_equal. lra.
  - reflexivity.
  - intros _. simpl. unfold day. lra.
  - intros H. by simpl in H.
  - reflexivity.
  - reflexivity.
  - reflexivity.
Defined.

(** * Further properties *)

(** ** Stores built by [__init__] and [add_param] *)

Lemma wf_add_param s p :
  wf s → attrs s !! par_name p = None → wf (add_param s p).
Proof.
  intros [Hp Hn] Hfresh. split; simpl.
  - apply Forall_app. split.
    + eapply Forall_impl; [exact Hp|]. intros k [q Hq].
      rewrite lookup_insert_ne by congruence. by exists q.
    + constructor; [|constructor]. rewrite lookup_insert_eq. by eexists.
  - apply map_Forall_insert; [done|]. by split.
Qed.

Lemma templates_add_param s p : templates s → templates (add_param s p).
Proof.
  unfold templates. intros Ht. eapply Forall_impl; [exact Ht|].
  intros f [q Hq]. simpl. rewrite lookup_insert. case_decide; by eexists.
Qed.

Lemma listed_add_param s p : listed s → listed (add_param s p).
Proof.
  unfold listed. intros Hl k q. simpl. rewrite lookup_insert.
  case_decide as Hk.
  - intros _. subst k. apply elem_of_app. right. by left.
  - intros Hq. apply elem_of_app. left. by apply (Hl k q).
Qed.

Lemma init_wf e : wf (init e).
Proof. apply (bool_decide_unpack _). vm_compute. exact I. Qed.

Lemma init_templates e : templates (init e).
Proof. apply (bool_decide_unpack _). vm_compute. exact I. Qed.

Lemma init_listed e : listed (init e).
Proof. apply (bool_decide_unpack _). vm_compute. exact I. Qed.

(** X1.  The store that [__init__] makes, and every store obtained from
    it by [add_param] with parameters of new, pairwise different names (as
    when a par file is read), is well formed, holds the six index-1
    templates and lists every parameter it holds. *)
Theorem loaded_store_invariants e ps :
  NoDup (par_name <$> ps) →
  Forall (λ p, attrs (init e) !! par_name p = None) ps →
  wf (foldl add_param (init e) ps) ∧
  templates (foldl add_param (init e) ps) ∧
  listed (foldl add_param (init e) ps).
Proof.
  pose proof (init_wf e) as Hwf. pose proof (init_templates e) as Ht.
  pose proof (init_listed e) as Hl. revert Hwf Ht Hl.
  generalize (init e) as s. induction ps as [|p ps IH]; intros s Hwf Ht Hl Hnd Hf.
  - done.
  - simpl in Hnd. apply NoDup_cons in Hnd as [Hp Hnd].
    apply Forall_cons in Hf as [Hfp Hf]. simpl. apply IH.
    + by apply wf_add_param.
    + by apply templates_add_param.
    + by apply listed_add_param.
    + done.
    + apply Forall_forall. intros q Hq. simpl.
      rewrite lookup_insert_ne.
      * rewrite Forall_forall in Hf. by apply Hf.
      * intros E. apply Hp. rewrite E. apply list_elem_of_fmap. by exists q.
Qed.

Lemma loaded_store_invariants_witness :
  wf (foldl add_param (init 55000)
        [mkParam GLEP 2 56000; mkParam GLF0 2 1]) ∧
  templates (foldl add_param (init 55000)
               [mkParam GLEP 2 56000; mkParam GLF0 2 1]) ∧
  listed (foldl add_param (init 55000)
            [mkParam GLEP 2 56000; mkParam GLF0 2 1]).
Proof.
  apply (loaded_store_invariants 55000 [mkParam GLEP 2 56000; mkParam GLF0 2 1]).
  - apply (bool_decide_unpack _). vm_compute. exact I.
  - apply (bool_decide_unpack _). vm_compute. exact I.
Defined.

(** ** More about [setup] *)


(** Without a decay amplitude that lacks its decay time, every event of
    a well-formed store that lists its parameters is valid. *)
Lemma event_valid s i ev :
  wf s → listed s → ¬ bad_decay s i → event s i = Some ev → valid_event ev.
Proof.
  intros Hwf Hl Hnb Hev.
  destruct (event_lookups _ _ _ Hev)
    as (glep & glph & glf0 & glf1 & glf2 & glf0d & gltd &
        Hglep & Hglph & Hglf0 & Hglf1 & Hglf2 & Hglf0d & Hgltd & ->).
  unfold valid_event. simpl. intros HA Htau. apply Hnb.
  destruct (wf_lookup _ _ _ _ Hwf Hglf0d) as [Hf Hi].
  exists (pname GLF0D i), glf0d. split_and!; try done.
  - by apply (Hl _ glf0d).
  - unfold par_quantity in HA. by rewrite Hf in HA.
  - rewrite Hgltd. by apply (GLTD_value_quantity _ _ _ Hwf Hgltd).
Qed.


Section SetupMore.
Context `{SetOrder}.


(** X3.  When an index that was found has no epoch, [setup] raises the
    error about the epoch, whether or not a decay amplitude lacks its decay
    time as well: the epochs are checked in the first loop, the decay terms
    after it. *)
Theorem setup_epoch_error_first s i :
  wf s → templates s → missing_epoch s i →
  ∃ j, missing_epoch s j ∧
       setup s = Raise (MissingParameter "Glitch" ("GLEP_" +:+ str j)
                          ("Glicth Epoch is needed for Glicth " +:+ str j
                           +:+ ".")).
Proof.
  intros Hwf Ht Hm.
  destruct (setup_spec s Hwf Ht)
    as [(j & Hj & E)|[(Hnm & _)|(Hnm & _)]].
  - by exists j.
  - by apply Hnm in Hm.
  - by apply Hnm in Hm.
Qed.
End SetupMore.


(** A frequency step and a decay amplitude for a second glitch, without
    its epoch and without its decay time. *)
Lemma setup_epoch_error_first_witness :
  ∃ j, missing_epoch
         (foldl add_param (init 55000) [mkParam GLF0 2 1; mkParam GLF0D 2 1]) j ∧
       @setup first_seen_order
         (foldl add_param (init 55000) [mkParam GLF0 2 1; mkParam GLF0D 2 1])
       = Raise (MissingParameter "Glitch" ("GLEP_" +:+ str j)
                  ("Glicth Epoch is needed for Glicth " +:+ str j +:+ ".")).
Proof.
  apply (@setup_epoch_error_first first_seen_order
           (foldl add_param (init 55000) [mkParam GLF0 2 1; mkParam GLF0D 2 1])
           2).
  - apply (bool_decide_unpack _). vm_compute. exact I.
  - apply (bool_decide_unpack _). vm_compute. exact I.
  - split.
    + exists "GLF0_2", (mkParam GLF0 2 1). split_and!; try done.
      apply (bool_decide_unpack _). vm_compute. exact I.
    + reflexivity.
Defined.




Section SetupAppends.
Context `{SetOrder}.

End SetupAppends.


(** X5.  The test [x in y] by which [setup] finds the indices holds of a
    prefix of [glitch_prop] and a parameter name exactly when the name is of
    that family (['GLF0_'] does not occur in ['GLF0D_n'], nor any of the six
    in ['GLEP_n']); so the indices found are exactly the indices of the
    parameters of the six families that the store lists, and a glitch of
    which only the epoch is given contributes none. *)
Theorem collect_indices_six_families s :
  wf s →
  (∀ f f' i, f ≠ GLEP →
     str_in (prefix_str f) (pname f' i) = true ↔ f' = f) ∧
  ∃ idxs, collect_indices s = Ok idxs ∧
    ∀ i, i ∈ idxs ↔
         ∃ k p, k ∈ params s ∧ attrs s !! k = Some p ∧
                par_prefix p ≠ GLEP ∧ par_index p = i.
Proof.
  intros Hwf. split.
  - intros f f' i _. rewrite str_in_pname. split.
    + by intros <-%bool_decide_eq_true_1.
    + intros ->. by apply bool_decide_eq_true_2.
  - destruct (collect_indices_spec s Hwf) as (idxs & E & Hi).
    exists idxs. split; [done|]. exact Hi.
Qed.

Lemma collect_indices_six_families_witness :
  (∀ f f' i, f ≠ GLEP →
     str_in (prefix_str f) (pname f' i) = true ↔ f' = f) ∧
  ∃ idxs, collect_indices epoch_only_glitch = Ok idxs ∧
    ∀ i, i ∈ idxs ↔
         ∃ k p, k ∈ params epoch_only_glitch ∧
                attrs epoch_only_glitch !! k = Some p ∧
                par_prefix p ≠ GLEP ∧ par_index p = i.
Proof.
  apply (collect_indices_six_families epoch_only_glitch).
  apply (bool_decide_unpack _). vm_compute. exact I.
Defined.

(** ** The forward model on a whole store *)







Section AfterSetup.
Context `{SetOrder}.



End AfterSetup.






(** ** The derivatives together *)

Lemma deriv_entry_pos h x : (0 < x)%R → deriv_entry h x = (0 + h x)%R.
Proof. intros Hx. unfold deriv_entry. by rewrite bool_decide_eq_true_2. Qed.

Lemma deriv_entry_nonpos h x : (x <= 0)%R → deriv_entry h x = 0%R.
Proof.
  intros Hx. unfold deriv_entry. by rewrite bool_decide_eq_false_2 by lra.
Qed.

(** X9.  The phase of a glitch is linear in [GLPH], [GLF0], [GLF1],
    [GLF2] and [GLF0D]: at every timestamp, what the glitch adds to the
    phase is the sum of these five quantities, each multiplied by the entry
    of the derivative that is registered for it.  (The decay time is not 0,
    so that [d_phase_d_GLF0D] returns.) *)
Theorem phase_is_linear_in_amplitudes s n ev tdbld delay i t d :
  wf s → event s n = Some ev → ev_GLTD ev ≠ 0%R →
  length tdbld = length delay →
  tdbld !! i = Some t → delay !! i = Some d →
  ∃ (c : list R) (arr : family → list R) (y : family → R),
    contribution s tdbld delay (pname GLEP n) = Ok c ∧
    (∀ F, F ∈ [GLPH; GLF0; GLF1; GLF2; GLF0D] →
          d_phase_d F s tdbld (pname F n) delay = Ok (arr F) ∧
          arr F !! i = Some (y F)) ∧
    c !! i = Some (ev_GLPH ev * y GLPH + ev_GLF0 ev * y GLF0
                   + ev_GLF1 ev * y GLF1 + ev_GLF2 ev * y GLF2
                   + ev_GLF0D ev * y GLF0D)%R.
Proof.
  intros Hwf Hev Htau Hl Ht Hd.
  destruct (contribution_entry s n ev tdbld delay i t d Hwf Hev
              (λ _, Htau) Hl Ht Hd) as (c & Hc & Hci).
  pose proof (λ F HF, d_phase_d_entry s n ev tdbld delay i t d Hwf Hev Hl Ht Hd
                        F HF (λ _, Htau)) as HD.
  destruct (HD GLPH) as (a1 & E1 & _ & H1); [done|].
  destruct (HD GLF0) as (a2 & E2 & _ & H2); [done|].
  destruct (HD GLF1) as (a3 & E3 & _ & H3); [done|].
  destruct (HD GLF2) as (a4 & E4 & _ & H4); [done|].
  destruct (HD GLF0D) as (a5 & E5 & _ & H5); [done|].
  set (dt := ((t - ev_GLEP ev) * day - d)%R) in *.
  exists c,
    (λ F, match F with
          | GLPH => a1 | GLF0 => a2 | GLF1 => a3 | GLF2 => a4 | _ => a5
          end),
    (λ F, match F with
          | GLPH => deriv_entry (λ _, 1%R) dt
          | GLF0 => deriv_entry (λ x, x) dt
          | GLF1 => deriv_entry (λ x, 0.5 * x * x)%R dt
          | GLF2 => deriv_entry (λ x, 1 / 6 * x * x * x)%R dt
          | _ => deriv_entry
                   (λ x, ev_GLTD ev * (1 - exp (- x / ev_GLTD ev)))%R dt
          end).
  split; [done|]. split.
  - intros F HF.
    repeat (apply elem_of_cons in HF as [->|HF]; [done|]).
    by apply elem_of_nil in HF.
  - rewrite Hci. f_equal. cbv zeta. fold dt. unfold deriv_entry.
    case_bool_decide; [|ring].
    unfold event_phase, poly_term, decay_term.
    replace (- dt / ev_GLTD ev)%R with (- (dt / ev_GLTD ev))%R
      by (unfold Rdiv; ring).
    destruct (Req_dec_T (ev_GLF0D ev) 0) as [->|_]; ring.
Qed.

Lemma phase_is_linear_in_amplitudes_witness :
  ∃ (c : list R) (arr : family → list R) (y : family → R),
    contribution one_glitch [55001%R] [0%R] (pname GLEP 1) = Ok c ∧
    (∀ F, F ∈ [GLPH; GLF0; GLF1; GLF2; GLF0D] →
          d_phase_d F one_glitch [55001%R] (pname F 1) [0%R] = Ok (arr F) ∧
          arr F !! 0 = Some (y F)) ∧
    c !! 0 = Some (0 * y GLPH + 1 * y GLF0 + 0 * y GLF1 + 0 * y GLF2
                   + 1 * y GLF0D)%R.
Proof.
  apply (phase_is_linear_in_amplitudes one_glitch 1 one_glitch_event
           [55001%R] [0%R] 0 55001%R 0%R).
  - apply (bool_decide_unpack _). vm_compute. exact I.
  - reflexivity.
  - simpl. unfold day. lra.
  - reflexivity.
  - reflexivity.
  - reflexivity.
Defined.



(** X11.  With a decay time that is positive, the entry of
    [d_phase_d_GLF0D] at a timestamp after the glitch lies strictly between
    0 and the entry of [d_phase_d_GLF0], which is the time since the
    glitch: a decaying step in frequency adds phase, and less of it than a
    permanent step of that size. *)
Theorem decaying_step_below_permanent_step s n ev tdbld delay i t d :
  wf s → event s n = Some ev → (0 < ev_GLTD ev)%R →
  length tdbld = length delay →
  tdbld !! i = Some t → delay !! i = Some d →
  (0 < (t - ev_GLEP ev) * day - d)%R →
  ∃ a0 aD y0 yD,
    d_phase_d_GLF0 s tdbld (pname GLF0 n) delay = Ok a0 ∧
    d_phase_d_GLF0D s tdbld (pname GLF0D n) delay = Ok aD ∧
    a0 !! i = Some y0 ∧ aD !! i = Some yD ∧
    y0 = ((t - ev_GLEP ev) * day - d)%R ∧ (0 < yD < y0)%R.
Proof.
  intros Hwf Hev Htau Hl Ht Hd Hdt.
  assert (ev_GLTD ev ≠ 0%R) as Hnz by lra.
  destruct (d_phase_d_entry s n ev tdbld delay i t d Hwf Hev Hl Ht Hd GLF0)
    as (a0 & E0 & _ & H0); [done|done|].
  destruct (d_phase_d_entry s n ev tdbld delay i t d Hwf Hev Hl Ht Hd GLF0D)
    as (aD & ED & _ & HD); [done|done|].
  rewrite deriv_entry_pos in H0, HD by done.
  set (dt := ((t - ev_GLEP ev) * day - d)%R) in *.
  set (tau := ev_GLTD ev) in *.
  exists a0, aD, (0 + dt)%R, (0 + tau * (1 - exp (- dt / tau)))%R.
  split_and!; [done..|lra| |].
  - assert (exp (- dt / tau) < 1)%R.
    { rewrite <- exp_0. apply exp_increasing.
      unfold Rdiv. rewrite <- Ropp_mult_distr_l.
      apply Ropp_lt_gt_0_contravar, Rlt_gt, Rmult_lt_0_compat; [done|].
      by apply Rinv_0_lt_compat. }
    assert (0 < tau * (1 - exp (- dt / tau)))%R
      by (apply Rmult_lt_0_compat; lra).
    lra.
  - assert (0 < dt / tau)%R as Hq
      by (apply Rmult_lt_0_compat; [done|by apply Rinv_0_lt_compat]).
    pose proof (exp_ineq1 (- dt / tau)%R) as Hexp.
    assert (- dt / tau = - (dt / tau))%R as Heq by (unfold Rdiv; ring).
    rewrite Heq in *.
    assert (1 + - (dt / tau) < exp (- (dt / tau)))%R as Hlt
      by (apply Hexp; lra).
    assert (tau * (1 - exp (- (dt / tau))) < tau * (dt / tau))%R
      by (apply Rmult_lt_compat_l; lra).
    replace (tau * (dt / tau))%R with dt in * by (by field).
    lra.
Qed.

Lemma decaying_step_below_permanent_step_witness :
  ∃ a0 aD y0 yD,
    d_phase_d_GLF0 one_glitch [55001%R] (pname GLF0 1) [0%R] = Ok a0 ∧
    d_phase_d_GLF0D one_glitch [55001%R] (pname GLF0D 1) [0%R] = Ok aD ∧
    a0 !! 0 = Some y0 ∧ aD !! 0 = Some yD ∧
    y0 = ((55001 - 55000) * day - 0)%R ∧ (0 < yD < y0)%R.
Proof.
  apply (decaying_step_below_permanent_step one_glitch 1 one_glitch_event
           [55001%R] [0%R] 0 55001%R 0%R).
  - apply (bool_decide_unpack _). vm_compute. exact I.
  - reflexivity.
  - simpl. unfold day. lra.
  - reflexivity.
  - reflexivity.
  - reflexivity.
  - simpl. unfold day. lra.
Defined.

(** ** What a derivative reads *)

Lemma deriv_args_pname s F fn n :
  deriv_args s (prefix_str F) fn (pname F n) =
    (glep ← getattr s (pname GLEP n);
     par ← getattr s (pname F n);
     Ok (str n, n, par_value glep, par)).
Proof.
  unfold deriv_args. rewrite split_prefixed_name_pname. simpl.
  by rewrite String.eqb_refl.
Qed.

(** X12.  A derivative is asked about the parameter [F_n].  Without the
    epoch [GLEP_n] the answer is an [AttributeError] that names the epoch,
    be [F_n] there or not; with the epoch and without [F_n], one that
    names [F_n].  For [GLPH], [GLF0], [GLF1] and [GLF2] the epoch and the
    parameter are all that is read: with them an array with one entry for
    each timestamp is returned, whatever else of the glitch is missing. *)
Theorem derivative_reads_epoch_then_parameter s F n tdbld delay :
  F ≠ GLEP →
  (attrs s !! pname GLEP n = None →
   d_phase_d F s tdbld (pname F n) delay =
     Raise (AttributeError (pname GLEP n))) ∧
  (is_Some (attrs s !! pname GLEP n) → attrs s !! pname F n = None →
   d_phase_d F s tdbld (pname F n) delay =
     Raise (AttributeError (pname F n))) ∧
  (F ∈ [GLPH; GLF0; GLF1; GLF2] →
   is_Some (attrs s !! pname GLEP n) → is_Some (attrs s !! pname F n) →
   length tdbld = length delay →
   ∃ arr, d_phase_d F s tdbld (pname F n) delay = Ok arr ∧
          length arr = length tdbld).
Proof.
  intros HF. split_and!.
  - intros Hn. deriv_begin deriv_args_pname s F; by rewrite Hn.
  - intros [glep Hglep] Hn. deriv_begin deriv_args_pname s F; by rewrite Hglep; simpl; rewrite Hn.
  - intros HF4 [glep Hglep] [par Hpar] Hl.
    assert (F = GLPH ∨ F = GLF0 ∨ F = GLF1 ∨ F = GLF2) as HF'.
    { repeat (apply elem_of_cons in HF4 as [->|HF4]; [tauto|]).
      by apply elem_of_nil in HF4. }
    destruct HF' as [-> |[-> |[-> | ->]]]; simpl;
      unfold d_phase_d_GLPH, d_phase_d_GLF0, d_phase_d_GLF1, d_phase_d_GLF2.
    + rewrite (deriv_args_Ok s GLPH _ n _ _ Hglep Hpar). simpl.
      rewrite dt_seconds_Ok by done. simpl. eexists. split; [done|].
      by rewrite length_idx_iadd, length_zeros.
    + rewrite (deriv_args_Ok s GLF0 _ n _ _ Hglep Hpar). simpl.
      rewrite dt_seconds_Ok by done. simpl. eexists. split; [done|].
      by rewrite length_idx_set, length_zeros.
    + rewrite (deriv_args_Ok s GLF1 _ n _ _ Hglep Hpar). simpl.
      rewrite dt_seconds_Ok by done. simpl. eexists. split; [done|].
      by rewrite length_idx_iadd, length_zeros.
    + rewrite (deriv_args_Ok s GLF2 _ n _ _ Hglep Hpar). simpl.
      rewrite dt_seconds_Ok by done. simpl. eexists. split; [done|].
      by rewrite length_idx_iadd, length_zeros.
Qed.

Lemma derivative_reads_epoch_then_parameter_witness :
  d_phase_d GLF0 second_glitch_without_epoch [55001%R] (pname GLF0 2) [0%R] =
    Raise (AttributeError (pname GLEP 2)) ∧
  d_phase_d GLF1 second_glitch_without_epoch [55001%R] (pname GLF1 1) [0%R] =
    Raise (AttributeError (pname GLF1 1)) ∧
  ∃ arr,
    d_phase_d GLF0 second_glitch_without_epoch [55001%R] (pname GLF0 1) [0%R]
      = Ok arr ∧
    length arr = length [55001%R].
Proof.
  pose (s := second_glitch_without_epoch). split_and!.
  - apply (proj1 (derivative_reads_epoch_then_parameter s GLF0 2
                    [55001%R] [0%R] ltac:(discriminate))).
    reflexivity.
  - apply (proj1 (proj2 (derivative_reads_epoch_then_parameter s GLF1 1
                           [55001%R] [0%R] ltac:(discriminate)))).
    + apply (bool_decide_unpack _). vm_compute. exact I.
    + reflexivity.
  - apply (proj2 (proj2 (derivative_reads_epoch_then_parameter s GLF0 1
                           [55001%R] [0%R] ltac:(discriminate)))).
    + apply (bool_decide_unpack _). vm_compute. exact I.
    + apply (bool_decide_unpack _). vm_compute. exact I.
    + apply (bool_decide_unpack _). vm_compute. exact I.
    + reflexivity.
Defined.

(** ** Writing the parameters out *)

Section PrintParSpec.
Context `{SetOrder}.
Variable as_parfile_line : prefixParameter → string.

Lemma print_par_params s i fs acc :
  Forall (λ f, is_Some (attrs s !! pname f i)) fs →
  ∃ ps, Forall2 (λ f p, attrs s !! pname f i = Some p) fs ps ∧
        foldM (print_par_param as_parfile_line s i) acc (prefix_str <$> fs) =
          Ok (foldl (λ acc p, acc +:+ as_parfile_line p) acc ps).
Proof.
  revert acc. induction fs as [|f fs IH]; intros acc Hfs.
  - exists []. by split.
  - apply Forall_cons in Hfs as [[p Hp] Hfs].
    destruct (IH (acc +:+ as_parfile_line p) Hfs) as (ps & Hps & E).
    exists (p :: ps). split; [by constructor|].
    assert (print_par_param as_parfile_line s i acc (prefix_str f) =
            Ok (acc +:+ as_parfile_line p)) as E1.
    { unfold print_par_param.
      change (prefix_str f +:+ str i) with (pname f i).
      by rewrite (getattr_Some _ _ _ Hp). }
    cbn [fmap list_fmap foldM]. rewrite E1. exact E.
Qed.

Lemma print_par_indices s L acc :
  Forall (λ i, Forall (λ f, is_Some (attrs s !! pname f i)) (GLEP :: six)) L →
  ∃ lines,
    Forall2 (λ i ps,
               Forall2 (λ f p, attrs s !! pname f i = Some p) (GLEP :: six) ps)
      L lines ∧
    foldM (λ acc idx,
             foldM (print_par_param as_parfile_line s idx) acc
               ("GLEP_" :: glitch_prop)) acc L =
      Ok (foldl (λ acc p, acc +:+ as_parfile_line p) acc (concat lines)).
Proof.
  revert acc. induction L as [|i L IH]; intros acc HL.
  - exists []. by split.
  - apply Forall_cons in HL as [Hi HL].
    destruct (print_par_params s i (GLEP :: six) acc Hi) as (ps & Hps & E).
    destruct (IH (foldl (λ acc p, acc +:+ as_parfile_line p) acc ps) HL) as (lines & Hlines & E').
    exists (ps :: lines). split; [by constructor|].
    set (body := λ acc idx,
           foldM (print_par_param as_parfile_line s idx) acc
             ("GLEP_" :: glitch_prop)) in *.
    change (foldM body acc (i :: L))
      with (body acc i ≫= λ acc', foldM body acc' L).
    assert (body acc i =
            Ok (foldl (λ acc p, acc +:+ as_parfile_line p) acc ps)) as ->
      by exact E.
    simpl. etrans; [exact E'|].
    by rewrite foldl_app.
Qed.

(** X13.  [setup] followed by [print_par]: after a successful [setup],
    [print_par] raises nothing and returns, for every index that [setup]
    has stored, taken once, the par-file lines of the seven parameters of
    that glitch, the epoch first and then the six of [glitch_prop] in their
    order, one after the other. *)
Theorem print_par_after_setup s s' :
  wf s → templates s → setup s = Ok s' →
  ∃ lines : list (list prefixParameter),
    Forall2 (λ i ps,
               Forall2 (λ f p, attrs s' !! pname f i = Some p) (GLEP :: six) ps)
      (set_iter (glitch_indices s')) lines ∧
    print_par as_parfile_line s' =
      Ok (foldl (λ acc p, acc +:+ as_parfile_line p) EmptyString
            (concat lines)).
Proof.
  intros Hwf Ht E.
  destruct (setup_spec s Hwf Ht)
    as [(j & _ & E')|[(_ & j & _ & E')|(_ & _ & s1 & E' & Hidx & X & _ & Hc')]];
    [congruence..|].
  assert (s1 = s') as -> by congruence.
  apply print_par_indices. apply Forall_forall. intros i Hi.
  apply set_iter_elem, Hidx in Hi.
  destruct (Hc' i) as [Hep Hsix].
  { by apply (extends_collected_mono _ _ _ _ X). }
  by constructor.
Qed.
End PrintParSpec.

Lemma print_par_after_setup_witness :
  ∃ lines : list (list prefixParameter),
    Forall2 (λ i ps,
               Forall2 (λ f p, attrs default_after_setup !! pname f i = Some p)
                 (GLEP :: six) ps)
      (@set_iter first_seen_order (glitch_indices default_after_setup))
      lines ∧
    @print_par first_seen_order par_name default_after_setup =
      Ok (foldl (λ acc p, acc +:+ par_name p) EmptyString (concat lines)).
Proof.
  apply (@print_par_after_setup first_seen_order par_name default_glitch
           default_after_setup).
  - apply (bool_decide_unpack _). vm_compute. exact I.
  - apply (bool_decide_unpack _). vm_compute. exact I.
  - vm_compute.
    match goal with
    | |- context [Req_dec_T ?x ?y] => destruct (Req_dec_T x y) as [_|Hn]
    end; [reflexivity|exfalso; apply Hn; reflexivity].
Defined.
